(** * Question-pattern predictor: segmentation and repeat detection

    A shallow embedding of [app.py].  Python strings are sequences of Unicode
    code points; the functions of the [re] module, [str.strip], [str.lower],
    [collections.Counter], [sorted], [next] and slicing are modelled by the
    behaviour CPython documents for them, and the functions of the script are
    written on top of these, statement by statement. *)

From Stdlib Require Import List NArith ZArith Lia Bool Ascii String DecimalString.
From Stdlib Require Import Permutation Sorted.
Import ListNotations.

Local Open Scope N_scope.

(** ** Python [str]: code points *)

Definition char := N.
Definition str := list char.

Definition chr (a : ascii) : char := N_of_ascii a.

(** String literals of this file are UTF-8; [utf8] decodes them to code
    points (one to four bytes per code point). *)
Fixpoint utf8_decode (bs : list N) : str :=
  match bs with
  | [] => []
  | b0 :: r0 =>
    if b0 <? 0x80 then b0 :: utf8_decode r0
    else match r0 with
    | [] => [b0]
    | b1 :: r1 =>
      if b0 <? 0xE0 then ((b0 mod 0x20) * 0x40 + b1 mod 0x40) :: utf8_decode r1
      else match r1 with
      | [] => [b0; b1]
      | b2 :: r2 =>
        if b0 <? 0xF0
        then ((b0 mod 0x10) * 0x1000 + (b1 mod 0x40) * 0x40 + b2 mod 0x40)
               :: utf8_decode r2
        else match r2 with
        | [] => [b0; b1; b2]
        | b3 :: r3 =>
          ((b0 mod 0x08) * 0x40000 + (b1 mod 0x40) * 0x1000
            + (b2 mod 0x40) * 0x40 + b3 mod 0x40) :: utf8_decode r3
        end
      end
    end
  end.

Definition utf8 (s : string) : str :=
  utf8_decode (map N_of_ascii (list_ascii_of_string s)).

Definition LF : char := 10.
Definition CR : char := 13.

(** [Py_UNICODE_ISSPACE]: the code points [str.isspace], [str.strip] and the
    regular-expression class [\s] agree on. *)
Definition whitespace_table : list char :=
  [0x09; 0x0A; 0x0B; 0x0C; 0x0D; 0x1C; 0x1D; 0x1E; 0x1F; 0x20; 0x85; 0xA0;
   0x1680; 0x2000; 0x2001; 0x2002; 0x2003; 0x2004; 0x2005; 0x2006; 0x2007;
   0x2008; 0x2009; 0x200A; 0x2028; 0x2029; 0x202F; 0x205F; 0x3000].

Definition isspace (c : char) : bool := existsb (N.eqb c) whitespace_table.

(** [Py_UNICODE_ISDECIMAL], the class [\d] of a [str] pattern: the decimal
    digits of every script (general category Nd, Unicode 14), as inclusive
    ranges. *)
Definition decimal_ranges : list (char * char) :=
  [(0x30, 0x39); (0x660, 0x669); (0x6F0, 0x6F9); (0x7C0, 0x7C9);
   (0x966, 0x96F); (0x9E6, 0x9EF); (0xA66, 0xA6F); (0xAE6, 0xAEF);
   (0xB66, 0xB6F); (0xBE6, 0xBEF); (0xC66, 0xC6F); (0xCE6, 0xCEF);
   (0xD66, 0xD6F); (0xDE6, 0xDEF); (0xE50, 0xE59); (0xED0, 0xED9);
   (0xF20, 0xF29); (0x1040, 0x1049); (0x1090, 0x1099); (0x17E0, 0x17E9);
   (0x1810, 0x1819); (0x1946, 0x194F); (0x19D0, 0x19D9); (0x1A80, 0x1A89);
   (0x1A90, 0x1A99); (0x1B50, 0x1B59); (0x1BB0, 0x1BB9); (0x1C40, 0x1C49);
   (0x1C50, 0x1C59); (0xA620, 0xA629); (0xA8D0, 0xA8D9); (0xA900, 0xA909);
   (0xA9D0, 0xA9D9); (0xA9F0, 0xA9F9); (0xAA50, 0xAA59); (0xABF0, 0xABF9);
   (0xFF10, 0xFF19); (0x104A0, 0x104A9); (0x10D30, 0x10D39);
   (0x11066, 0x1106F); (0x110F0, 0x110F9); (0x11136, 0x1113F);
   (0x111D0, 0x111D9); (0x112F0, 0x112F9); (0x11450, 0x11459);
   (0x114D0, 0x114D9); (0x11650, 0x11659); (0x116C0, 0x116C9);
   (0x11730, 0x11739); (0x118E0, 0x118E9); (0x11950, 0x11959);
   (0x11C50, 0x11C59); (0x11D50, 0x11D59); (0x11DA0, 0x11DA9);
   (0x16A60, 0x16A69); (0x16AC0, 0x16AC9); (0x16B50, 0x16B59);
   (0x1D7CE, 0x1D7FF); (0x1E140, 0x1E149); (0x1E2F0, 0x1E2F9);
   (0x1E950, 0x1E959); (0x1FBF0, 0x1FBF9)].

Definition isdecimal (c : char) : bool :=
  existsb (fun r => (fst r <=? c) && (c <=? snd r)) decimal_ranges.

Fixpoint drop_while {A} (f : A -> bool) (l : list A) : list A :=
  match l with
  | x :: r => if f x then drop_while f r else l
  | [] => []
  end.

(** Every element of [l] is in the class [f]. *)
Definition all {A} (f : A -> bool) (l : list A) : Prop :=
  Forall (fun x => f x = true) l.

(** [l] is empty or starts with an element outside the class [f]. *)
Definition stops {A} (f : A -> bool) (l : list A) : Prop :=
  match l with
  | [] => True
  | x :: _ => f x = false
  end.

(** [str.strip()] with no argument. *)
Definition lstrip (s : str) : str := drop_while isspace s.

Definition rstrip (s : str) : str := rev (lstrip (rev s)).

Definition strip (s : str) : str := rstrip (lstrip s).

(** Slicing [l[start:stop]] (step 1): [None] is an omitted bound, a negative
    bound counts from the end, and both are clamped to the list. *)
Definition slice_bound (len : Z) (i : option Z) (dflt : Z) : Z :=
  match i with
  | None => dflt
  | Some i => if (i <? 0)%Z then Z.max (i + len) 0 else Z.min i len
  end.

Definition py_slice {A} (l : list A) (start stop : option Z) : list A :=
  let len := Z.of_nat (List.length l) in
  let lo := slice_bound len start 0 in
  let hi := slice_bound len stop len in
  firstn (Z.to_nat (hi - lo)) (skipn (Z.to_nat lo) l).

(** ** The [re] module, for patterns that are a sequence of quantified
    character classes *)

Inductive quant := Once | Opt | Star | Plus.

Record item := Item { cls : char -> bool; rep : quant }.

Definition regex := list item.

(** A greedy repeat takes as many characters as it can and gives them back one
    at a time while the rest of the pattern, [k], fails. *)
Fixpoint greedy (c : char -> bool) (k : str -> option str) (s : str)
  : option str :=
  match s with
  | x :: r =>
    if c x then match greedy c k r with
                | Some t => Some t
                | None => k s
                end
    else k s
  | [] => k s
  end.

(** [sre_match p s]: the text left after the match of [p] at the head of [s]
    that the backtracking matcher finds first. *)
Fixpoint sre_match (p : regex) (s : str) : option str :=
  match p with
  | [] => Some s
  | it :: p' =>
    match rep it with
    | Once =>
      match s with
      | x :: r => if cls it x then sre_match p' r else None
      | [] => None
      end
    | Opt =>
      match s with
      | x :: r =>
        if cls it x then match sre_match p' r with
                         | Some t => Some t
                         | None => sre_match p' s
                         end
        else sre_match p' s
      | [] => sre_match p' s
      end
    | Star => greedy (cls it) (sre_match p') s
    | Plus =>
      match s with
      | x :: r => if cls it x then greedy (cls it) (sre_match p') r else None
      | [] => None
      end
    end
  end.

(** [re_search p s]: the leftmost match, as the text before it and the text
    after it. *)
Fixpoint re_search (p : regex) (s : str) : option (str * str) :=
  match sre_match p s with
  | Some rest => Some ([], rest)
  | None =>
    match s with
    | [] => None
    | x :: r =>
      match re_search p r with
      | Some (pre, rest) => Some (x :: pre, rest)
      | None => None
      end
    end
  end.

(** The loops of [re.split] and [re.sub]: search, cut, go on after the match.
    Every match of the two patterns of this program takes at least one
    character ([cr_progress], [marker_progress]), so the loop runs at most
    [length s] times, and the rule of [re] for empty matches is never used. *)
Fixpoint split_loop (fuel : nat) (p : regex) (s : str) : list str :=
  match fuel with
  | O => [s]
  | S n =>
    match re_search p s with
    | None => [s]
    | Some (pre, rest) => pre :: split_loop n p rest
    end
  end.

Definition re_split (p : regex) (s : str) : list str :=
  split_loop (List.length s) p s.

Fixpoint sub_loop (fuel : nat) (p : regex) (repl s : str) : str :=
  match fuel with
  | O => s
  | S n =>
    match re_search p s with
    | None => s
    | Some (pre, rest) => pre ++ repl ++ sub_loop n p repl rest
    end
  end.

Definition re_sub (p : regex) (repl s : str) : str :=
  sub_loop (List.length s) p repl s.

Definition lit (a : char) : char -> bool := N.eqb a.

Definition one_of (l : list char) : char -> bool :=
  fun c => existsb (N.eqb c) l.

(** ** [split_into_questions] *)

(** [r'\r'] *)
Definition cr_pattern : regex := [Item (lit CR) Once].

(** [r"\n?\s*\d+[\).\]]\s+"] *)
Definition delimiters : list char := [chr ")"; chr "."; chr "]"].

Definition pattern : regex :=
  [Item (lit LF) Opt; Item isspace Star; Item isdecimal Plus;
   Item (one_of delimiters) Once; Item isspace Plus].

Definition split_into_questions (text : str) : list str :=
  let text := re_sub cr_pattern [] text in
  let parts := re_split pattern text in
  fold_left
    (fun questions q =>
       let q_clean := strip q in
       if (15 <? List.length q_clean)%nat
       then questions ++ [q_clean]
       else questions)
    (py_slice parts (Some 1%Z) None)
    [].

Definition nl : string := String "010" EmptyString.


(** ** The Segmenter as the specification words it *)

(** Stripping carriage returns. *)
Definition remove_cr (text : str) : str :=
  filter (fun c => negb (c =? CR)) text.

(** A numbering marker: optional leading whitespace (newlines included), one
    or more digits, a closing delimiter that is one of [)], [.] and []], then
    whitespace, which is required. *)
Definition is_marker (m : str) : Prop :=
  exists ws ds d ws',
    m = ws ++ ds ++ d :: ws' /\
    all isspace ws /\
    ds <> [] /\ all isdecimal ds /\
    In d delimiters /\
    ws' <> [] /\ all isspace ws'.

(** A marker occurs at the head of [s]; a marker occurs somewhere in [s]. *)
Definition marker_at (s : str) : Prop :=
  exists m post, s = m ++ post /\ is_marker m.

Definition has_marker (s : str) : Prop :=
  exists pre suf, s = pre ++ suf /\ marker_at suf.

(** Splitting at every occurrence, scanning from the left: the first cut is at
    the leftmost place where a marker begins, the marker is taken with all the
    whitespace that follows it, and the scan goes on after it. *)
Inductive split_at_markers : str -> list str -> Prop :=
| split_last s :
    ~ has_marker s ->
    split_at_markers s [s]
| split_cut pre m rest parts :
    is_marker m ->
    (forall a x b, pre = a ++ x :: b -> ~ marker_at (x :: b ++ m ++ rest)) ->
    stops isspace rest ->
    split_at_markers rest parts ->
    split_at_markers (pre ++ m ++ rest) (pre :: parts).

(** The kept segments: trimmed, longer than 15 characters. *)
Definition long (q : str) : bool := (15 <? List.length q)%nat.

Definition kept (parts : list str) : list str :=
  filter long (map strip (tl parts)).

(** The tail of [pattern], stage by stage. *)
Definition pattern4 : regex := [Item isspace Plus].
Definition pattern3 : regex := Item (one_of delimiters) Once :: pattern4.
Definition pattern2 : regex := Item isdecimal Plus :: pattern3.
Definition pattern1 : regex := Item isspace Star :: pattern2.

(** [split_into_questions] with the number of rounds of its two loops given
    from outside. *)
Definition split_into_questions_rounds (n m : nat) (text : str) : list str :=
  let text := sub_loop n cr_pattern [] text in
  let parts := split_loop m pattern text in
  fold_left
    (fun questions q =>
       let q_clean := strip q in
       if (15 <? List.length q_clean)%nat
       then questions ++ [q_clean]
       else questions)
    (py_slice parts (Some 1%Z) None)
    [].

(** A marker at the start of a line: nothing but whitespace stands between the
    beginning of a line (the beginning of the text, or a newline) and the
    digits of the marker. *)
Definition ends_line (a : str) : Prop := a = [] \/ exists a', a = a' ++ [LF].

Definition line_start_marker_in (s : str) : Prop :=
  exists before ds d ws' post,
    s = before ++ ds ++ d :: ws' ++ post /\
    ds <> [] /\ all isdecimal ds /\ In d delimiters /\
    ws' <> [] /\ all isspace ws' /\
    exists a b, before = a ++ b /\ ends_line a /\ all isspace b.

(** The prefixes of [l] that end just before an element of the class [f]. *)
Fixpoint prefixes_before {A} (f : A -> bool) (l : list A) : list (list A) :=
  match l with
  | [] => []
  | x :: r =>
    (if f x then [[]] else []) ++ map (cons x) (prefixes_before f r)
  end.

Definition paper_one_line : str :=
  utf8 "Intro 1. What is object oriented programming?".

Definition paper_broken_marker : str :=
  utf8 "1" ++ [CR] ++ utf8 ". What is object oriented programming?".

Definition paper_no_numbers : str :=
  utf8 ("Answer all questions. Calculators are not allowed." ++ nl
        ++ "Explain polymorphism with an example.").

(** ** [str.lower] *)

(** The tables of the Unicode character database that [str.lower] reads. *)
Record case_tables := {
  tolower_full : char -> list char;
  is_cased : char -> bool;
  is_case_ignorable : char -> bool
}.

Definition CAPITAL_SIGMA : char := 0x3A3.
Definition SMALL_SIGMA : char := 0x3C3.
Definition FINAL_SIGMA : char := 0x3C2.

Section Lower.
Variable U : case_tables.

(** A capital sigma is lowered to the final sigma when a cased letter stands
    before it and none after it, case-ignorable characters being skipped on
    both sides.  [before] is the text before the sigma, nearest character
    first. *)
Definition handle_capital_sigma (before after : str) : char :=
  let final_sigma :=
    match drop_while (is_case_ignorable U) before with
    | c :: _ => is_cased U c
    | [] => false
    end in
  let final_sigma :=
    if final_sigma then
      match drop_while (is_case_ignorable U) after with
      | c :: _ => negb (is_cased U c)
      | [] => true
      end
    else false in
  if final_sigma then FINAL_SIGMA else SMALL_SIGMA.

Definition lower_ucs4 (before : str) (c : char) (after : str) : list char :=
  if c =? CAPITAL_SIGMA then [handle_capital_sigma before after]
  else tolower_full U c.

Fixpoint do_lower (before s : str) : str :=
  match s with
  | [] => []
  | c :: after => lower_ucs4 before c after ++ do_lower (c :: before) after
  end.

Definition lower (s : str) : str := do_lower [] s.
End Lower.

(** The rows of the tables for Basic Latin and for the Greek letters
    U+0391..U+03C9; the examples of this file stay within them. *)
Definition in_range (lo hi c : char) : bool := (lo <=? c) && (c <=? hi).

Definition latin_greek : case_tables := {|
  tolower_full c :=
    if in_range 0x41 0x5A c || in_range 0x391 0x3A1 c || in_range 0x3A3 0x3AB c
    then [c + 32] else [c];
  is_cased c :=
    in_range 0x41 0x5A c || in_range 0x61 0x7A c
    || in_range 0x391 0x3A1 c || in_range 0x3A3 0x3C9 c;
  is_case_ignorable c := one_of [0x27; 0x2E; 0x3A; 0x5E; 0x60] c
|}.

(** ** Exceptions, [next], [Counter], [sorted], [str.join] *)

Inductive exn :=
| StopIteration
| NameError (name : string)
| StopException
| ServiceError.

Inductive outcome (A : Type) :=
| Returned (a : A)
| Raised (e : exn).
Arguments Returned {A} a.
Arguments Raised {A} e.

(** [next(it)] with no default, on the items an iterator still has. *)
Definition next {A} (items : list A) : outcome A :=
  match items with
  | x :: _ => Returned x
  | [] => Raised StopIteration
  end.

Fixpoint str_eqb (a b : str) : bool :=
  match a, b with
  | [], [] => true
  | x :: a', y :: b' => (x =? y) && str_eqb a' b'
  | _, _ => false
  end.

(** A [dict] with [str] keys, in insertion order. *)
Definition dict (V : Type) := list (str * V).

(** [d[k] = d.get(k, 0) + 1] *)
Fixpoint count_element (k : str) (d : dict nat) : dict nat :=
  match d with
  | [] => [(k, 1%nat)]
  | (k', c) :: r =>
    if str_eqb k' k then (k', S c) :: r else (k', c) :: count_element k r
  end.

Definition Counter (elements : list str) : dict nat :=
  fold_left (fun d k => count_element k d) elements [].

(** [sorted(l, key=..., reverse=True)]: descending, and stable: elements with
    equal keys keep their order. *)
Section Sorted.
Context {A : Type} (key : A -> nat).

Fixpoint insert_desc (x : A) (l : list A) : list A :=
  match l with
  | [] => [x]
  | y :: r => if (key x <? key y)%nat then y :: insert_desc x r else x :: l
  end.

Definition sorted_reverse (l : list A) : list A :=
  fold_right insert_desc [] l.
End Sorted.

Fixpoint join (sep : str) (l : list str) : str :=
  match l with
  | [] => []
  | [x] => x
  | x :: r => x ++ sep ++ join sep r
  end.

Definition str_of_nat (n : nat) : str :=
  utf8 (NilEmpty.string_of_uint (Nat.to_uint n)).

(** ** The repeat detector *)

Section RepeatDetector.
Variable U : case_tables.

(** [q.lower().strip()] *)
Definition normalize (q : str) : str := strip (lower U q).

Definition normalized (all_questions : list str) : list str :=
  map normalize all_questions.

Definition counts (all_questions : list str) : dict nat :=
  Counter (normalized all_questions).

Definition repeated (all_questions : list str) : dict nat :=
  filter (fun qc => (1 <? snd qc)%nat) (counts all_questions).

(** The loop that maps each repeated form back to an original text. *)
Fixpoint map_back (all_questions : list str) (groups : dict nat)
         (repeated_readable : list (str * nat))
  : outcome (list (str * nat)) :=
  match groups with
  | [] => Returned repeated_readable
  | (q_norm, c) :: groups' =>
    match next (filter (fun q => str_eqb (normalize q) q_norm)
                       all_questions) with
    | Raised e => Raised e
    | Returned orig =>
      map_back all_questions groups' (repeated_readable ++ [(orig, c)])
    end
  end.

Definition repeated_readable (all_questions : list str)
  : outcome (list (str * nat)) :=
  map_back all_questions (repeated all_questions) [].

(** The groups in the order they are shown. *)
Definition shown (repeated_readable : list (str * nat)) : list (str * nat) :=
  sorted_reverse snd repeated_readable.
End RepeatDetector.

(** [joined_questions] *)
Definition joined_questions (all_questions : list str) : str :=
  join [LF] (py_slice all_questions None (Some 50%Z)).

Definition pattern_prompt (all_questions : list str) : str :=
  utf8 ("You are helping a student prepare for exams." ++ nl
        ++ "Below are many previous exam questions for one subject." ++ nl
        ++ "1) Identify the main topics that appear again and again." ++ nl
        ++ "2) List 5–10 'high chance' topics for the next exam." ++ nl
        ++ "3) Suggest a short study plan in simple language." ++ nl ++ nl
        ++ "Questions:" ++ nl)
  ++ joined_questions all_questions.

(** ** The script *)

(** What a run of the script reads: the environment after [load_dotenv], the
    state of the widgets, the text [pdfplumber] extracts from each page of an
    uploaded file ([None] for a page without text) and the completion
    service. *)
Definition pdf := list (option str).

Record session := {
  OPENAI_API_KEY : option str;
  question_papers : list pdf;
  syllabus_file : option pdf;
  analyze_syllabus_clicked : bool;
  analyze_question_papers_clicked : bool;
  completion : str -> outcome str
}.

(** What a run does, in order. *)
Inductive event :=
| st_error (body : str)
| st_set_page_config (page_title : str)
| st_title (body : str)
| st_write (body : str)
| st_write_int (n : nat)
| st_file_uploader (label : str)
| st_success (body : str)
| st_button (label : str)
| st_spinner (text : str)
| st_subheader (body : str)
| st_markdown (body : str)
| st_info (body : str)
| st_caption (body : str)
| chat_completion (prompt : str).

(** Statements: they add to the trace of the run, and return or raise. *)
Definition M (A : Type) := list event -> outcome A * list event.

Definition ret {A} (a : A) : M A := fun t => (Returned a, t).

Definition bind {A B} (m : M A) (f : A -> M B) : M B :=
  fun t =>
    match m t with
    | (Returned a, t') => f a t'
    | (Raised e, t') => (Raised e, t')
    end.

Definition emit (e : event) : M unit := fun t => (Returned tt, t ++ [e]).

Definition raise {A} (e : exn) : M A := fun t => (Raised e, t).

Definition lift {A} (o : outcome A) : M A := fun t => (o, t).

Notation "x <- m ;; f" := (bind m (fun x => f))
  (at level 61, m at next level, right associativity).
Notation "m ;; f" := (bind m (fun _ => f))
  (at level 61, right associativity).

Definition run {A} (m : M A) : outcome A * list event := m [].

(** [st.stop()] ends the run. *)
Definition st_stop {A} : M A := raise StopException.

(** The truth value of [os.getenv(...)]: [None] and the empty string are
    false. *)
Definition truthy (v : option str) : bool :=
  match v with
  | None | Some [] => false
  | Some _ => true
  end.

Definition extract_text_from_pdf (uploaded_file : pdf) : str :=
  fold_left
    (fun text page_text =>
       if truthy page_text
       then match page_text with
            | Some page_text => text ++ page_text ++ [LF]
            | None => text
            end
       else text)
    uploaded_file [].

Section Script.
Variable U : case_tables.
Variable s : session.

Definition call_llm (prompt : str) : M str :=
  emit (chat_completion prompt) ;;
  content <- lift (completion s prompt) ;;
  ret (strip content).

Definition syllabus_prompt (syllabus_text : str) : str :=
  utf8 (nl
    ++ "You are an exam-focused assistant for a university BCA subject." ++ nl
    ++ "Use ONLY the syllabus below to prepare student-friendly output." ++ nl
    ++ nl
    ++ "Do ALL of the following:" ++ nl
    ++ nl
    ++ "1) Give a short summary of the syllabus in 3–5 bullet points." ++ nl
    ++ "2) List the MOST important topics to study (5–10 bullet points)." ++ nl
    ++ "3) Generate 8–10 expected theory questions (mix of long-answer and short notes)." ++ nl
    ++ "   - Do NOT write answers, only questions." ++ nl
    ++ "4) Generate 8–10 multiple choice questions (MCQs) based on the syllabus." ++ nl
    ++ "   - Each MCQ should have 4 options: a), b), c), d)" ++ nl
    ++ "   - Clearly mark the correct option, like: **Correct: b)**" ++ nl
    ++ nl
    ++ "Keep the language simple and clear, as if explaining to an average BCA student." ++ nl
    ++ nl
    ++ "Syllabus:" ++ nl)
  ++ syllabus_text ++ [LF].

Definition syllabus_analysis : M unit :=
  match syllabus_file s with
  | None => ret tt
  | Some file =>
    emit (st_success (utf8 "Syllabus file uploaded.")) ;;
    emit (st_button (utf8 "🔍 Analyze Syllabus")) ;;
    if analyze_syllabus_clicked s then
      emit (st_spinner (utf8 "Analyzing syllabus and generating questions...")) ;;
      syllabus_output <-
        call_llm (syllabus_prompt (extract_text_from_pdf file)) ;;
      emit (st_subheader (utf8 "📘 Syllabus Insights, Expected Questions & MCQs")) ;;
      emit (st_markdown syllabus_output)
    else ret tt
  end.

(** [for q, c in sorted(...): st.markdown(f"**({c} papers)** {q}")] *)
Definition repeated_line (g : str * nat) : event :=
  let (q, c) := g in
  st_markdown (utf8 "**(" ++ str_of_nat c ++ utf8 " papers)** " ++ q).

Fixpoint show_repeated (groups : list (str * nat)) : M unit :=
  match groups with
  | [] => ret tt
  | g :: groups' => emit (repeated_line g) ;; show_repeated groups'
  end.

(** [all_questions] after the loop over the uploaded papers. *)
Definition all_questions : list str :=
  fold_left
    (fun all_questions qp =>
       let text := extract_text_from_pdf qp in
       let questions := split_into_questions text in
       all_questions ++ questions)
    (question_papers s) [].

(** The body of [if st.button("Analyze Question Papers")].  A name that is
    bound in one branch only is [None] where it is unbound. *)
Definition question_paper_analysis : M unit :=
  emit (st_spinner (utf8 "Reading question papers and finding patterns...")) ;;
  bound <-
    match all_questions with
    | [] =>
      emit (st_error
              (utf8 ("Could not find questions. "
                     ++ "Check if the PDFs are scanned images instead of text."))) ;;
      ret None
    | _ :: _ =>
      readable <- lift (repeated_readable U all_questions) ;;
      ret (Some readable)
    end ;;
  match all_questions with
  | [] => ret tt
  | _ :: _ =>
    emit (st_subheader (utf8 "❓ Total questions found")) ;;
    emit (st_write_int (List.length all_questions)) ;;
    readable <-
      match bound with
      | Some readable => ret readable
      | None => raise (NameError "repeated_readable")
      end ;;
    match readable with
    | _ :: _ =>
      emit (st_subheader (utf8 "🔁 Most Repeated Questions")) ;;
      show_repeated (sorted_reverse snd readable)
    | [] =>
      emit (st_info (utf8 "No exactly repeated questions found across the uploaded papers."))
    end ;;
    emit (st_spinner (utf8 "Asking AI for high-chance topics...")) ;;
    pattern_insights <- call_llm (pattern_prompt all_questions) ;;
    emit (st_subheader (utf8 "📈 High-Chance Topics & Study Plan")) ;;
    emit (st_write pattern_insights)
  end.

Definition question_papers_section : M unit :=
  match question_papers s with
  | [] => ret tt
  | _ :: _ =>
    emit (st_success
            (str_of_nat (List.length (question_papers s))
             ++ utf8 " question paper(s) uploaded.")) ;;
    emit (st_button (utf8 "📊 Analyze Question Papers")) ;;
    if analyze_question_papers_clicked s
    then question_paper_analysis
    else ret tt
  end.

Definition app_py : M unit :=
  (if truthy (OPENAI_API_KEY s) then ret tt
   else
     emit (st_error
             (utf8 "OPENAI_API_KEY is not set. Please add it to your .env file.")) ;;
     st_stop) ;;
  emit (st_set_page_config (utf8 "Question Paper Pattern Predictor")) ;;
  emit (st_title (utf8 "📊 University Question Paper Pattern Predictor")) ;;
  emit (st_write (utf8 "Upload your syllabus and previous question papers to get smart exam insights.")) ;;
  emit (st_file_uploader (utf8 "Upload previous question papers (PDF format)")) ;;
  emit (st_file_uploader (utf8 "Upload syllabus (PDF format)")) ;;
  syllabus_analysis ;;
  question_papers_section ;;
  match syllabus_file s, question_papers s with
  | Some _, _ :: _ =>
    emit (st_markdown (utf8 "---")) ;;
    emit (st_caption
            (utf8 ("Tip: When both syllabus and question papers are uploaded, "
                   ++ "you can first analyze the syllabus, then analyze question papers "
                   ++ "to get a full picture.")))
  | _, _ => ret tt
  end.
End Script.

(** ** Notions the statements about the repeat detector use *)

(** How many times [k] occurs in [l]. *)
Definition occurrences (k : str) (l : list str) : nat :=
  List.length (filter (str_eqb k) l).

Definition keys {V} (d : dict V) : list str := map fst d.

Section Groups.
Variable U : case_tables.

(** [orig] is the first question of [all_questions], in document order, whose
    normalization is [q_norm]. *)
Definition first_match (all_questions : list str) (q_norm orig : str) : Prop :=
  exists earlier later,
    all_questions = earlier ++ orig :: later /\
    normalize U orig = q_norm /\
    forall q, In q earlier -> normalize U q <> q_norm.

(** [a] and [b] differ only in letter case: they have the same length, and at
    each place their characters have the same lowercase form. *)
Definition differ_in_case (a b : str) : Prop :=
  Forall2 (fun x y => tolower_full U x = tolower_full U y) a b.

(** [A] and [B] differ only in letter case or in leading and trailing
    whitespace. *)
Definition differ_in_case_or_outer_whitespace (A B : str) : Prop :=
  exists w1 a w2 w3 b w4,
    A = w1 ++ a ++ w2 /\ B = w3 ++ b ++ w4 /\
    all isspace w1 /\ all isspace w2 /\ all isspace w3 /\ all isspace w4 /\
    differ_in_case a b.

(** Whitespace has no case: it is lowered to itself, it is not cased and it is
    not case-ignorable. *)
Definition whitespace_caseless : Prop :=
  forall c, isspace c = true ->
            tolower_full U c = [c] /\
            is_cased U c = false /\ is_case_ignorable U c = false.

(** What the sigma rule looks at before and after a capital sigma. *)
Definition cased_before (before : str) : bool :=
  match drop_while (is_case_ignorable U) before with
  | c :: _ => is_cased U c
  | [] => false
  end.

Definition uncased_after (after : str) : bool :=
  match drop_while (is_case_ignorable U) after with
  | c :: _ => negb (is_cased U c)
  | [] => true
  end.
End Groups.

Definition descending_by {A} (key : A -> nat) (a b : A) : Prop :=
  (key b <= key a)%nat.

Definition descending : str * nat -> str * nat -> Prop := descending_by snd.

(** What [Counter] keeps true while it reads the elements [seen]: every key
    once, the keys are the elements seen, each with its number of
    occurrences. *)
Definition counted (d : dict nat) (seen : list str) : Prop :=
  NoDup (keys d) /\
  (forall k, In k (keys d) <-> In k seen) /\
  (forall k c, In (k, c) d -> c = occurrences k seen).

(** [A] and [B] differ only in leading and trailing whitespace, or in the case
    of letters other than the capital sigma. *)
Definition differ_outside_sigma (U : case_tables) (A B : str) : Prop :=
  exists w1 a w2 w3 b w4,
    A = w1 ++ a ++ w2 /\ B = w3 ++ b ++ w4 /\
    all isspace w1 /\ all isspace w2 /\ all isspace w3 /\ all isspace w4 /\
    differ_in_case U a b /\
    (a = b \/ (~ In CAPITAL_SIGMA a /\ ~ In CAPITAL_SIGMA b)).

Definition logos_upper : str := utf8 "DEFINE THE GREEK WORD ΛΟΓΟΣ".
Definition logos_lower : str := utf8 "define the greek word λογοσ".

Definition osi_padded : str := utf8 "  Explain the OSI model in detail.".
Definition osi_shouting : str := utf8 "EXPLAIN THE osi MODEL IN DETAIL.  ".

(** What a run shows about the repeated questions. *)
Definition repeats_block (readable : list (str * nat)) : list event :=
  match readable with
  | _ :: _ =>
    st_subheader (utf8 "🔁 Most Repeated Questions")
    :: map repeated_line (sorted_reverse snd readable)
  | [] =>
    [st_info (utf8 "No exactly repeated questions found across the uploaded papers.")]
  end.

(** The trace of the analysis of the question papers, up to the request to
    the completion service. *)
Definition analysis_trace (qs : list str) (readable : list (str * nat))
  : list event :=
  [st_spinner (utf8 "Reading question papers and finding patterns...");
   st_subheader (utf8 "❓ Total questions found");
   st_write_int (List.length qs)]
  ++ repeats_block readable
  ++ [st_spinner (utf8 "Asking AI for high-chance topics...");
      chat_completion (pattern_prompt qs)].

Definition is_markdown (e : event) : bool :=
  match e with
  | st_markdown _ => true
  | _ => false
  end.

Definition is_write_int (e : event) : bool :=
  match e with
  | st_write_int _ => true
  | _ => false
  end.

Definition is_chat_completion (e : event) : bool :=
  match e with
  | chat_completion _ => true
  | _ => false
  end.

Definition two_papers : session := {|
  OPENAI_API_KEY := Some (utf8 "sk-test");
  question_papers :=
    [[Some (utf8 ("Paper 2023" ++ nl ++ "1. Explain the OSI model in detail."
                  ++ nl ++ "2. Define inheritance with an example."))];
     [Some (utf8 ("Paper 2024" ++ nl ++ "1) explain the OSI model in detail."));
      None]];
  syllabus_file := None;
  analyze_syllabus_clicked := false;
  analyze_question_papers_clicked := true;
  completion := fun _ => Returned (utf8 " Study the OSI model. ")
|}.

Definition no_key : session := {|
  OPENAI_API_KEY := None;
  question_papers := question_papers two_papers;
  syllabus_file := Some [Some (utf8 "Unit 1: networks")];
  analyze_syllabus_clicked := true;
  analyze_question_papers_clicked := true;
  completion := fun _ => Returned (utf8 "never asked")
|}.

(** ** Notions for further properties of the code *)

(** [q] is a piece of [s]: it stands in [s] as it is, in one run. *)
Definition infix (q s : str) : Prop := exists pre post, s = pre ++ q ++ post.

(** The first occurrences of the elements of [l], in order. *)
Fixpoint first_seen (l : list str) : list str :=
  match l with
  | [] => []
  | x :: r => x :: filter (fun y => negb (str_eqb x y)) (first_seen r)
  end.

(** A page from which [pdfplumber] extracts no text. *)
Definition no_text (page_text : option str) : Prop := truthy page_text = false.

(** The strings of [qs] stand in [s] one after another, in this order and
    without overlap. *)
Fixpoint in_order (qs : list str) (s : str) : Prop :=
  match qs with
  | [] => True
  | q :: qs' => exists gap rest, s = gap ++ q ++ rest /\ in_order qs' rest
  end.

Definition paper_three_questions : str :=
  utf8 ("Intro text" ++ nl ++ "1. What is OOP?" ++ nl
        ++ "2. Define inheritance." ++ nl
        ++ "3. Explain polymorphism with an example.").

(** What one page adds to the extracted text. *)
Definition page_line (page_text : option str) : str :=
  match page_text with
  | Some (c :: t) => (c :: t) ++ [LF]
  | _ => []
  end.

Definition scanned_papers : session := {|
  OPENAI_API_KEY := Some (utf8 "sk-test");
  question_papers := [[None; Some []]; [None]];
  syllabus_file := None;
  analyze_syllabus_clicked := false;
  analyze_question_papers_clicked := true;
  completion := fun _ => Returned (utf8 "never asked")
|}.

Definition no_repeats_line : event :=
  st_info (utf8 "No exactly repeated questions found across the uploaded papers.").

Definition distinct_papers : session := {|
  OPENAI_API_KEY := Some (utf8 "sk-test");
  question_papers :=
    [[Some (utf8 ("Paper 2023" ++ nl ++ "1. Explain the OSI model in detail."
                  ++ nl ++ "2. Define inheritance with an example."))]];
  syllabus_file := None;
  analyze_syllabus_clicked := false;
  analyze_question_papers_clicked := true;
  completion := fun _ => Raised ServiceError
|}.

(** ** Notions for the properties of a run *)

Definition missing_key_line : event :=
  st_error (utf8 "OPENAI_API_KEY is not set. Please add it to your .env file.").

(** What every run with a credential shows first. *)
Definition fixed_widgets : list event :=
  [st_set_page_config (utf8 "Question Paper Pattern Predictor");
   st_title (utf8 "📊 University Question Paper Pattern Predictor");
   st_write (utf8 "Upload your syllabus and previous question papers to get smart exam insights.");
   st_file_uploader (utf8 "Upload previous question papers (PDF format)");
   st_file_uploader (utf8 "Upload syllabus (PDF format)")].

Definition syllabus_header (s : session) : list event :=
  match syllabus_file s with
  | Some _ =>
    [st_success (utf8 "Syllabus file uploaded.");
     st_button (utf8 "🔍 Analyze Syllabus")]
  | None => []
  end.

Definition papers_header (s : session) : list event :=
  match question_papers s with
  | _ :: _ =>
    [st_success (str_of_nat (List.length (question_papers s))
                 ++ utf8 " question paper(s) uploaded.");
     st_button (utf8 "📊 Analyze Question Papers")]
  | [] => []
  end.

(** The prompt a run has to send for the syllabus, and for the question
    papers, if any. *)
Definition syllabus_request (s : session) : option str :=
  match syllabus_file s with
  | Some file =>
    if analyze_syllabus_clicked s
    then Some (syllabus_prompt (extract_text_from_pdf file))
    else None
  | None => None
  end.

Definition pattern_request (s : session) : option str :=
  match question_papers s with
  | _ :: _ =>
    if analyze_question_papers_clicked s
    then match all_questions s with
         | _ :: _ => Some (pattern_prompt (all_questions s))
         | [] => None
         end
    else None
  | [] => None
  end.

Definition request_events (req : option str) : list event :=
  match req with
  | Some p => [chat_completion p]
  | None => []
  end.

(** The last statement of the script. *)
Definition both_uploaded_tip (s : session) : M unit :=
  match syllabus_file s, question_papers s with
  | Some _, _ :: _ =>
    emit (st_markdown (utf8 "---")) ;;
    emit (st_caption
            (utf8 ("Tip: When both syllabus and question papers are uploaded, "
                   ++ "you can first analyze the syllabus, then analyze question papers "
                   ++ "to get a full picture.")))
  | _, _ => ret tt
  end.

(** A part of the script that sends the request [req], if any, and nothing
    else to the service: it adds to the trace, its only request is [req], and
    it raises exactly what the service raises on [req]. *)
Definition sends (s : session) (m : M unit) (req : option str) : Prop :=
  forall t,
  exists added,
    snd (m t) = t ++ added /\
    filter is_chat_completion added = request_events req /\
    fst (m t)
    = match req with
      | Some p =>
        match completion s p with
        | Returned _ => Returned tt
        | Raised e => Raised e
        end
      | None => Returned tt
      end.

Definition failing_syllabus : session := {|
  OPENAI_API_KEY := Some (utf8 "sk-test");
  question_papers := question_papers two_papers;
  syllabus_file := Some [Some (utf8 "Unit 1: networks")];
  analyze_syllabus_clicked := true;
  analyze_question_papers_clicked := true;
  completion := fun _ => Raised ServiceError
|}.

Definition empty_key : session := {|
  OPENAI_API_KEY := Some [];
  question_papers := question_papers two_papers;
  syllabus_file := None;
  analyze_syllabus_clicked := false;
  analyze_question_papers_clicked := true;
  completion := fun _ => Returned (utf8 "never asked")
|}.

Definition sixty_questions : list str :=
  repeat (utf8 "Explain the OSI model in detail.") 60.
(** ** Facts on the string primitives *)

Section DropWhile.
Context {A : Type} (f : A -> bool).

Lemma drop_while_stops l : stops f (drop_while f l).
Proof.
  induction l as [|x r IH]; simpl; [exact I|].
  destruct (f x) eqn:E; [exact IH | exact E].
Qed.

Lemma drop_while_fixed l : stops f l -> drop_while f l = l.
Proof.
  destruct l as [|x r]; simpl; [reflexivity|].
  intros ->. reflexivity.
Qed.

Lemma drop_while_app w l : all f w -> drop_while f (w ++ l) = drop_while f l.
Proof.
  induction 1 as [|x w Hx _ IH]; simpl; [reflexivity|].
  rewrite Hx. exact IH.
Qed.

Lemma drop_while_all w : all f w -> drop_while f w = [].
Proof.
  intros H. rewrite <- (app_nil_r w). rewrite drop_while_app by exact H.
  reflexivity.
Qed.

Lemma drop_while_split l :
  exists w, l = w ++ drop_while f l /\ all f w.
Proof.
  induction l as [|x r [w [E Hw]]]; simpl.
  - exists []. split; [reflexivity | constructor].
  - destruct (f x) eqn:Hx.
    + exists (x :: w). split; [simpl; congruence | constructor; assumption].
    + exists []. split; [reflexivity | constructor].
Qed.

Lemma drop_while_cut w l : all f w -> stops f l -> drop_while f (w ++ l) = l.
Proof.
  intros Hw Hl. rewrite drop_while_app by exact Hw.
  apply drop_while_fixed, Hl.
Qed.

Lemma drop_while_keeps_last l x :
  f x = false -> drop_while f (l ++ [x]) = drop_while f l ++ [x].
Proof.
  intros Hx. induction l as [|y r IH]; simpl.
  - rewrite Hx. reflexivity.
  - destruct (f y); [exact IH | reflexivity].
Qed.

Lemma all_app u v : all f u -> all f v -> all f (u ++ v).
Proof. intros Hu Hv. apply Forall_app. split; assumption. Qed.

Lemma all_rev u : all f u -> all f (rev u).
Proof. apply Forall_rev. Qed.
End DropWhile.

Section Strip.
Lemma lstrip_ws w s : all isspace w -> lstrip (w ++ s) = lstrip s.
Proof. apply drop_while_app. Qed.

Lemma rstrip_ws s w : all isspace w -> rstrip (s ++ w) = rstrip s.
Proof.
  intros Hw. unfold rstrip, lstrip. rewrite rev_app_distr.
  rewrite drop_while_app by (apply all_rev, Hw). reflexivity.
Qed.

Lemma rstrip_nil : rstrip [] = [].
Proof. reflexivity. Qed.

(** [rstrip] leaves the first character alone when it is not whitespace. *)
Lemma rstrip_head c r :
  isspace c = false -> exists r', rstrip (c :: r) = c :: r'.
Proof.
  intros Hc. unfold rstrip, lstrip. simpl rev.
  rewrite drop_while_keeps_last by exact Hc.
  rewrite rev_app_distr. simpl. eexists. reflexivity.
Qed.

Lemma rstrip_idem s : rstrip (rstrip s) = rstrip s.
Proof.
  unfold rstrip, lstrip. rewrite rev_involutive.
  rewrite drop_while_fixed by apply drop_while_stops. reflexivity.
Qed.

Lemma lstrip_strip s : lstrip (strip s) = strip s.
Proof.
  unfold strip. pose proof (drop_while_stops isspace s) as H.
  fold (lstrip s) in H. destruct (lstrip s) as [|c r]; [reflexivity|].
  simpl in H. destruct (rstrip_head c r H) as [r' ->].
  unfold lstrip. simpl. rewrite H. reflexivity.
Qed.

Lemma strip_idem s : strip (strip s) = strip s.
Proof.
  unfold strip at 1. rewrite lstrip_strip. unfold strip.
  apply rstrip_idem.
Qed.

(** Whitespace around a string does not survive [strip]. *)
Lemma strip_ws w1 s w2 :
  all isspace w1 -> all isspace w2 -> strip (w1 ++ s ++ w2) = strip s.
Proof.
  intros H1 H2. unfold strip. rewrite lstrip_ws by exact H1.
  destruct (drop_while_split isspace s) as [w [E Hw]].
  fold (lstrip s) in E. pose proof (drop_while_stops isspace s) as Hs.
  fold (lstrip s) in Hs.
  destruct (lstrip s) as [|c r] eqn:L.
  - rewrite app_nil_r in E. subst w.
    unfold lstrip in *. rewrite drop_while_all; [reflexivity|].
    apply all_app; assumption.
  - rewrite E at 1. rewrite <- app_assoc. rewrite lstrip_ws by exact Hw.
    unfold lstrip. simpl in Hs. simpl. rewrite Hs.
    change (c :: r ++ w2) with ((c :: r) ++ w2).
    apply rstrip_ws, H2.
Qed.
End Strip.

Lemma py_slice_tail {A} (l : list A) : py_slice l (Some 1%Z) None = tl l.
Proof.
  unfold py_slice, slice_bound. destruct l as [|x r]; [reflexivity|].
  change (1 <? 0)%Z with false. cbv iota.
  rewrite Z.min_l by (simpl List.length; lia).
  replace (Z.to_nat (Z.of_nat (List.length (x :: r)) - 1)) with (List.length r)
    by (simpl List.length; lia).
  simpl. apply firstn_all.
Qed.

(** ** The matcher on the marker pattern *)

Section Classes.
Lemma isspace_table c : isspace c = true -> In c whitespace_table.
Proof.
  unfold isspace. intros H. apply existsb_exists in H.
  destruct H as [x [Hin Hx]]. apply N.eqb_eq in Hx. subst x. exact Hin.
Qed.

Lemma space_not_decimal c : isspace c = true -> isdecimal c = false.
Proof.
  intros H. apply isspace_table in H. unfold whitespace_table in H.
  simpl in H.
  repeat (destruct H as [<- | H]; [vm_compute; reflexivity|]).
  contradiction.
Qed.

Lemma decimal_not_space c : isdecimal c = true -> isspace c = false.
Proof.
  intros H. destruct (isspace c) eqn:E; [|reflexivity].
  apply space_not_decimal in E. congruence.
Qed.

Lemma one_of_In l c : one_of l c = true <-> In c l.
Proof.
  unfold one_of. rewrite existsb_exists. split.
  - intros [x [Hin Hx]]. apply N.eqb_eq in Hx. subst. exact Hin.
  - intros Hin. exists c. split; [exact Hin | apply N.eqb_refl].
Qed.

Lemma delimiter_not_decimal d : In d delimiters -> isdecimal d = false.
Proof.
  unfold delimiters. simpl.
  intros [<- | [<- | [<- | []]]]; vm_compute; reflexivity.
Qed.

Lemma decimal_not_delimiter c :
  isdecimal c = true -> one_of delimiters c = false.
Proof.
  intros H. destruct (one_of delimiters c) eqn:E; [|reflexivity].
  apply one_of_In, delimiter_not_decimal in E. congruence.
Qed.

Lemma LF_space : isspace LF = true.
Proof. reflexivity. Qed.

Lemma CR_space : isspace CR = true.
Proof. reflexivity. Qed.
End Classes.

Section Greedy.
Variables (c : char -> bool) (k : str -> option str).

(** When the rest of the pattern cannot start with a character of the class,
    nothing is given back: the repeat takes the whole run. *)
Lemma greedy_drop s :
  (forall x r, c x = true -> k (x :: r) = None) ->
  greedy c k s = k (drop_while c s).
Proof.
  intros Hk. induction s as [|x r IH]; simpl; [reflexivity|].
  destruct (c x) eqn:Hx; [|reflexivity].
  rewrite IH. destruct (k (drop_while c r)); [reflexivity|].
  apply Hk, Hx.
Qed.
End Greedy.

Lemma greedy_last c s : greedy c (sre_match []) s = Some (drop_while c s).
Proof.
  induction s as [|x r IH]; [reflexivity|]. cbn [greedy drop_while].
  destruct (c x); [rewrite IH|]; reflexivity.
Qed.

Section MarkerMatch.
Lemma match4 s :
  sre_match pattern4 s =
  match s with
  | w :: r => if isspace w then Some (drop_while isspace r) else None
  | [] => None
  end.
Proof.
  destruct s as [|w r]; [reflexivity|].
  change (sre_match pattern4 (w :: r))
    with (if isspace w then greedy isspace (sre_match []) r else None).
  destruct (isspace w); [apply greedy_last | reflexivity].
Qed.

Lemma match3 s :
  sre_match pattern3 s =
  match s with
  | e :: r => if one_of delimiters e then sre_match pattern4 r else None
  | [] => None
  end.
Proof. reflexivity. Qed.

Lemma match2 s :
  sre_match pattern2 s =
  match s with
  | d :: r =>
    if isdecimal d then sre_match pattern3 (drop_while isdecimal r) else None
  | [] => None
  end.
Proof.
  destruct s as [|d r]; [reflexivity|].
  change (sre_match pattern2 (d :: r))
    with (if isdecimal d
          then greedy isdecimal (sre_match pattern3) r else None).
  destruct (isdecimal d); [|reflexivity].
  apply greedy_drop. intros x r' Hx. rewrite match3.
  rewrite (decimal_not_delimiter x Hx). reflexivity.
Qed.

Lemma match1 s : sre_match pattern1 s = sre_match pattern2 (drop_while isspace s).
Proof.
  change (sre_match pattern1 s) with (greedy isspace (sre_match pattern2) s).
  apply greedy_drop. intros x r Hx. rewrite match2.
  rewrite (space_not_decimal x Hx). reflexivity.
Qed.

(** The optional newline is whitespace, which the next stage takes anyway. *)
Lemma match0 s : sre_match pattern s = sre_match pattern1 s.
Proof.
  destruct s as [|x r]; [reflexivity|].
  change (sre_match pattern (x :: r))
    with (if lit LF x
          then match sre_match pattern1 r with
               | Some t => Some t
               | None => sre_match pattern1 (x :: r)
               end
          else sre_match pattern1 (x :: r)).
  destruct (lit LF x) eqn:E; [|reflexivity].
  apply N.eqb_eq in E. subst x.
  rewrite (match1 (LF :: r)). simpl drop_while. rewrite <- match1.
  destruct (sre_match pattern1 r); reflexivity.
Qed.

Lemma match_marker s :
  sre_match pattern s =
  match drop_while isspace s with
  | d :: r =>
    if isdecimal d then
      match drop_while isdecimal r with
      | e :: w :: r' =>
        if one_of delimiters e && isspace w
        then Some (drop_while isspace r') else None
      | _ => None
      end
    else None
  | [] => None
  end.
Proof.
  rewrite match0, match1, match2.
  destruct (drop_while isspace s) as [|d r]; [reflexivity|].
  destruct (isdecimal d); [|reflexivity].
  rewrite match3. destruct (drop_while isdecimal r) as [|e r1]; [reflexivity|].
  rewrite match4. destruct (one_of delimiters e); simpl; [|destruct r1; reflexivity].
  destruct r1 as [|w r']; reflexivity.
Qed.

(** What the matcher finds is a marker, taken with all the whitespace after
    it. *)
Lemma match_sound s rest :
  sre_match pattern s = Some rest ->
  exists m, s = m ++ rest /\ is_marker m /\ stops isspace rest.
Proof.
  rewrite match_marker.
  destruct (drop_while_split isspace s) as [ws [Es Hws]].
  destruct (drop_while isspace s) as [|d r]; [discriminate|].
  destruct (isdecimal d) eqn:Hd; [|discriminate].
  destruct (drop_while_split isdecimal r) as [ds [Er Hds]].
  destruct (drop_while isdecimal r) as [|e [|w r']]; try discriminate.
  destruct (one_of delimiters e) eqn:He; [|discriminate].
  destruct (isspace w) eqn:Hw; [|discriminate].
  simpl. intros [= <-].
  destruct (drop_while_split isspace r') as [ws' [Er' Hws']].
  pose proof (drop_while_stops isspace r') as Hrest.
  set (rest := drop_while isspace r') in *. clearbody rest. subst r' r s.
  exists (ws ++ (d :: ds) ++ e :: w :: ws'). split; [|split].
  - rewrite <- ?app_assoc. simpl. rewrite <- ?app_assoc. reflexivity.
  - exists ws, (d :: ds), e, (w :: ws'). repeat split.
    + exact Hws.
    + discriminate.
    + constructor; assumption.
    + apply one_of_In, He.
    + discriminate.
    + constructor; assumption.
  - exact Hrest.
Qed.

Lemma match_prefix ws ds d ws' post :
  all isspace ws -> ds <> [] -> all isdecimal ds -> In d delimiters ->
  ws' <> [] -> all isspace ws' ->
  exists w ws'',
    ws' = w :: ws'' /\
    sre_match pattern ((ws ++ ds ++ d :: ws') ++ post)
    = Some (drop_while isspace (ws'' ++ post)).
Proof.
  intros Hws Hne Hds Hd Hne' Hws'.
  destruct ds as [|d0 ds]; [congruence|].
  destruct ws' as [|w ws'']; [congruence|].
  exists w, ws''. split; [reflexivity|].
  inversion Hds as [|? ? Hd0 Hds0]; subst.
  inversion Hws' as [|? ? Hw Hws0]; subst.
  rewrite match_marker. rewrite <- !app_assoc.
  rewrite drop_while_cut; [|exact Hws|simpl; apply decimal_not_space, Hd0].
  cbn [List.app]. rewrite Hd0.
  rewrite drop_while_cut;
    [|exact Hds0|simpl; apply delimiter_not_decimal, Hd].
  apply one_of_In in Hd. rewrite Hd, Hw. reflexivity.
Qed.

(** Wherever a marker begins, the matcher succeeds. *)
Lemma match_complete s : marker_at s -> sre_match pattern s <> None.
Proof.
  intros [m [post [-> [ws [ds [d [ws' [-> [H1 [H2 [H3 [H4 [H5 H6]]]]]]]]]]]]].
  destruct (match_prefix ws ds d ws' post H1 H2 H3 H4 H5 H6)
    as [w [ws'' [_ ->]]].
  discriminate.
Qed.

Lemma match_maximal m rest :
  is_marker m -> stops isspace rest ->
  sre_match pattern (m ++ rest) = Some rest.
Proof.
  intros [ws [ds [d [ws' [-> [H1 [H2 [H3 [H4 [H5 H6]]]]]]]]]] Hrest.
  destruct (match_prefix ws ds d ws' rest H1 H2 H3 H4 H5 H6)
    as [w [ws'' [-> ->]]].
  inversion H6; subst.
  rewrite drop_while_cut by assumption. reflexivity.
Qed.

Lemma match_none s : sre_match pattern s = None <-> ~ marker_at s.
Proof.
  split.
  - intros H Hm. apply match_complete in Hm. contradiction.
  - intros H. destruct (sre_match pattern s) as [rest|] eqn:E; [|reflexivity].
    exfalso. apply H. destruct (match_sound s rest E) as [m [-> [Hm _]]].
    exists m, rest. split; [reflexivity | exact Hm].
Qed.
End MarkerMatch.

(** ** Leftmost search *)

Section Search.
Variable p : regex.

Lemma re_search_none s :
  re_search p s = None <-> forall a b, s = a ++ b -> sre_match p b = None.
Proof.
  induction s as [|x r IH]; simpl.
  - destruct (sre_match p []) eqn:E.
    + split; [discriminate|]. intros H. rewrite (H [] [] eq_refl) in E.
      discriminate.
    + split; [|reflexivity]. intros _ a b Hab.
      symmetry in Hab. apply app_eq_nil in Hab. destruct Hab as [_ ->].
      exact E.
  - destruct (sre_match p (x :: r)) eqn:E.
    + split; [discriminate|]. intros H. rewrite (H [] _ eq_refl) in E.
      discriminate.
    + destruct (re_search p r) as [[pre rest]|] eqn:R.
      * split; [discriminate|]. intros H.
        assert (Some (pre, rest) = None) as Habs; [|discriminate Habs].
        apply IH. intros a b Hab. apply (H (x :: a)). simpl. congruence.
      * split; [|reflexivity]. intros _ [|y a] b Hab.
        -- simpl in Hab. subst b. exact E.
        -- injection Hab as _ Hab. apply (proj1 IH eq_refl a b Hab).
Qed.

Lemma re_search_some s pre rest :
  re_search p s = Some (pre, rest) <->
  exists mid,
    s = pre ++ mid /\ sre_match p mid = Some rest /\
    forall a x b, pre = a ++ x :: b -> sre_match p (x :: b ++ mid) = None.
Proof.
  split.
  - revert pre. induction s as [|x r IH]; intros pre; simpl.
    + destruct (sre_match p []) eqn:E; [|discriminate].
      intros [= <- <-]. exists []. repeat split; [exact E|].
      intros [|? ?] ? ? Hab; discriminate Hab.
    + destruct (sre_match p (x :: r)) eqn:E.
      * intros [= <- <-]. exists (x :: r). repeat split; [exact E|].
        intros [|? ?] ? ? Hab; discriminate Hab.
      * destruct (re_search p r) as [[pre' rest']|]; [|discriminate].
        intros [= <- <-]. destruct (IH pre' eq_refl) as [mid [Hr [Hm Hbefore]]].
        exists mid. repeat split; [simpl; congruence | exact Hm |].
        intros [|y a] x0 b Hab; injection Hab as -> Hab.
        -- subst b. rewrite <- Hr. exact E.
        -- apply (Hbefore a x0 b Hab).
  - intros [mid [-> [Hm Hbefore]]]. induction pre as [|x pre IH]; simpl.
    + destruct mid; simpl; rewrite Hm; reflexivity.
    + rewrite (Hbefore [] x pre eq_refl). rewrite IH; [reflexivity|].
      intros a x0 b ->. apply (Hbefore (x :: a) x0 b). reflexivity.
Qed.
End Search.

Section MarkerSearch.
Lemma search_none s : re_search pattern s = None <-> ~ has_marker s.
Proof.
  rewrite re_search_none. split.
  - intros H [pre [suf [E Hm]]]. apply match_none in Hm; [exact Hm|].
    apply (H pre suf E).
  - intros H a b E. apply match_none. intros Hm. apply H.
    exists a, b. split; assumption.
Qed.

Lemma search_some s pre rest :
  re_search pattern s = Some (pre, rest) <->
  exists m,
    s = pre ++ m ++ rest /\ is_marker m /\ stops isspace rest /\
    forall a x b, pre = a ++ x :: b -> ~ marker_at (x :: b ++ m ++ rest).
Proof.
  rewrite re_search_some. split.
  - intros [mid [-> [Hm Hbefore]]].
    destruct (match_sound mid rest Hm) as [m [-> [Hmk Hrest]]].
    exists m. repeat split; try assumption.
    intros a x b E. apply match_none. apply (Hbefore a x b E).
  - intros [m [-> [Hmk [Hrest Hbefore]]]]. exists (m ++ rest).
    repeat split; [apply match_maximal; assumption|].
    intros a x b E. apply match_none. apply (Hbefore a x b E).
Qed.

Lemma marker_nonempty m : is_marker m -> (0 < List.length m)%nat.
Proof.
  intros [ws [ds [d [ws' [-> _]]]]]. rewrite !length_app. simpl. lia.
Qed.

(** Every match of the marker pattern takes at least one character. *)
Lemma marker_progress s pre rest :
  re_search pattern s = Some (pre, rest) ->
  (List.length rest < List.length s)%nat.
Proof.
  intros H. apply search_some in H. destruct H as [m [-> [Hm _]]].
  apply marker_nonempty in Hm. rewrite !length_app. lia.
Qed.

Lemma split_loop_spec n :
  forall s, (List.length s <= n)%nat ->
            split_at_markers s (split_loop n pattern s).
Proof.
  induction n as [|n IH]; intros s Hn; simpl.
  - destruct s; [|simpl in Hn; lia]. apply split_last.
    apply search_none. reflexivity.
  - destruct (re_search pattern s) as [[pre rest]|] eqn:E.
    + pose proof (marker_progress s pre rest E) as Hlt.
      apply search_some in E. destruct E as [m [-> [Hm [Hrest Hbefore]]]].
      apply split_cut; try assumption. apply IH. lia.
    + apply split_last. apply search_none, E.
Qed.

Lemma split_at_markers_loop s parts :
  split_at_markers s parts ->
  forall n, (List.length s <= n)%nat -> split_loop n pattern s = parts.
Proof.
  induction 1 as [s Hno | pre m rest parts Hm Hbefore Hrest _ IH];
    intros n Hn.
  - apply search_none in Hno. destruct n; simpl; [|rewrite Hno]; reflexivity.
  - pose proof (marker_nonempty m Hm) as Hlen.
    rewrite !length_app in Hn.
    destruct n as [|n]; [lia|]. simpl.
    assert (re_search pattern (pre ++ m ++ rest) = Some (pre, rest)) as ->.
    { apply search_some. exists m. repeat split; assumption. }
    rewrite IH by lia. reflexivity.
Qed.

(** The relation is a function, and [re.split] computes it. *)
Lemma split_at_markers_split s : split_at_markers s (re_split pattern s).
Proof. apply split_loop_spec. unfold ge. reflexivity. Qed.

Lemma split_at_markers_fun s parts :
  split_at_markers s parts -> parts = re_split pattern s.
Proof.
  intros H. symmetry. apply (split_at_markers_loop s parts H). reflexivity.
Qed.

Lemma split_loop_rounds n s :
  (List.length s <= n)%nat -> split_loop n pattern s = re_split pattern s.
Proof.
  intros Hn. apply split_at_markers_loop; [|exact Hn].
  apply split_at_markers_split.
Qed.
End MarkerSearch.

Section CarriageReturns.
Lemma search_cr s :
  match re_search cr_pattern s with
  | None => remove_cr s = s
  | Some (pre, rest) =>
    remove_cr s = pre ++ remove_cr rest /\
    (List.length rest < List.length s)%nat
  end.
Proof.
  induction s as [|x r IH]; [reflexivity|].
  cbn [re_search]. change (sre_match cr_pattern (x :: r))
    with (if lit CR x then Some r else None).
  unfold lit. rewrite N.eqb_sym. cbn [remove_cr filter].
  destruct (x =? CR) eqn:E; cbn [negb].
  - split; [reflexivity | simpl; lia].
  - fold (remove_cr r).
    destruct (re_search cr_pattern r) as [[pre rest]|].
    + destruct IH as [-> Hlt]. split; [reflexivity | simpl; lia].
    + rewrite IH. reflexivity.
Qed.

(** Every match of [\r] takes one character. *)
Lemma cr_progress s pre rest :
  re_search cr_pattern s = Some (pre, rest) ->
  (List.length rest < List.length s)%nat.
Proof.
  intros H. pose proof (search_cr s) as Hs. rewrite H in Hs. tauto.
Qed.

Lemma sub_loop_cr n :
  forall s, (List.length s <= n)%nat ->
            sub_loop n cr_pattern [] s = remove_cr s.
Proof.
  induction n as [|n IH]; intros s Hn.
  - destruct s; [reflexivity | simpl in Hn; lia].
  - cbn [sub_loop]. pose proof (search_cr s) as H.
    destruct (re_search cr_pattern s) as [[pre rest]|].
    + destruct H as [-> Hlt]. rewrite IH by lia. reflexivity.
    + symmetry. exact H.
Qed.

Lemma re_sub_cr s : re_sub cr_pattern [] s = remove_cr s.
Proof. apply sub_loop_cr. reflexivity. Qed.

Lemma remove_cr_length s : (List.length (remove_cr s) <= List.length s)%nat.
Proof. apply filter_length_le. Qed.
End CarriageReturns.

(** ** The Segmenter *)

Lemma collect_kept l :
  forall acc,
    fold_left
      (fun questions q =>
         let q_clean := strip q in
         if (15 <? List.length q_clean)%nat
         then questions ++ [q_clean]
         else questions) l acc
    = acc ++ filter long (map strip l).
Proof.
  induction l as [|q l IH]; intros acc; simpl.
  - symmetry. apply app_nil_r.
  - rewrite IH. unfold long at 2.
    destruct (15 <? List.length (strip q))%nat; [|reflexivity].
    rewrite <- app_assoc. reflexivity.
Qed.

Lemma split_into_questions_kept text :
  split_into_questions text = kept (re_split pattern (remove_cr text)).
Proof.
  unfold split_into_questions, kept.
  rewrite collect_kept, py_slice_tail, re_sub_cr. reflexivity.
Qed.

Lemma split_into_questions_rounds_eq n m text :
  (List.length text <= n)%nat -> (List.length text <= m)%nat ->
  split_into_questions_rounds n m text = split_into_questions text.
Proof.
  intros Hn Hm. unfold split_into_questions_rounds, split_into_questions.
  rewrite re_sub_cr, sub_loop_cr by exact Hn.
  rewrite split_loop_rounds; [reflexivity|].
  pose proof (remove_cr_length text). lia.
Qed.

Lemma prefixes_before_In {A} (f : A -> bool) (l u r : list A) x :
  l = u ++ x :: r -> f x = true -> In u (prefixes_before f l).
Proof.
  revert l. induction u as [|y u IH]; intros l -> Hx; simpl.
  - rewrite Hx. left. reflexivity.
  - apply in_or_app. right. apply in_map. apply (IH _ eq_refl Hx).
Qed.

(** C1, the claim as amended: the Segmenter strips carriage returns, splits the
    text at every occurrence of a numbering marker wherever it stands (optional
    leading whitespace, one or more digits, one of [)], [.], []], required
    whitespace; leftmost first, each marker with all the whitespace after it),
    discards the first segment, trims the others and returns, in document
    order, exactly those longer than 15 characters.  The split is the only one
    there is. *)
Theorem split_into_questions_splits_at_markers (text : str) :
  exists parts,
    split_at_markers (remove_cr text) parts /\
    (forall parts', split_at_markers (remove_cr text) parts' -> parts' = parts)
    /\ split_into_questions text = filter long (map strip (tl parts)).
Proof.
  exists (re_split pattern (remove_cr text)). split; [|split].
  - apply split_at_markers_split.
  - apply split_at_markers_fun.
  - apply split_into_questions_kept.
Qed.

Lemma split_into_questions_splits_at_markers_witness :
  exists parts,
    split_at_markers (remove_cr paper_one_line) parts /\
    (forall parts',
        split_at_markers (remove_cr paper_one_line) parts' -> parts' = parts)
    /\ split_into_questions paper_one_line
       = filter long (map strip (tl parts)).
Proof. exact (split_into_questions_splits_at_markers paper_one_line). Defined.

(** C1 as stated fails: the text [Intro 1. What is object oriented
    programming?] is one line that begins with a word, so it has no marker at
    the start of a line, and still the Segmenter cuts at the [1.] inside the
    line and returns the question after it. *)
Lemma marker_inside_a_line_splits :
  ~ line_start_marker_in (remove_cr paper_one_line) /\
  split_into_questions paper_one_line
  = [utf8 "What is object oriented programming?"].
Proof.
  split; [|vm_compute; reflexivity].
  intros [before [ds [d [ws' [post [E [Hne [Hds [_ [_ [_ Hline]]]]]]]]]]].
  destruct ds as [|d0 ds]; [congruence|]. inversion Hds as [|? ? Hd0 _]; subst.
  simpl in E. apply prefixes_before_In with (f := isdecimal) in E; [|exact Hd0].
  vm_compute in E. destruct E as [<- | []].
  destruct Hline as [a [b [E [[-> | [a' ->]] Hb]]]].
  - simpl in E. subst b. inversion Hb as [|? ? Hc _]. discriminate Hc.
  - assert (In LF [73; 110; 116; 114; 111; 32]) as Hin.
    { rewrite E. apply in_or_app. left. apply in_or_app. right. left.
      reflexivity. }
    simpl in Hin. unfold LF in Hin.
    repeat (destruct Hin as [Hin | Hin]; [discriminate Hin|]). exact Hin.
Qed.

(** C2: every question the Segmenter returns is trimmed (it equals its own
    trim, and neither begins nor ends with whitespace) and its trimmed length
    is greater than 15. *)
Theorem split_into_questions_trimmed_long (text : str) :
  Forall
    (fun q =>
       strip q = q /\ stops isspace q /\ stops isspace (rev q) /\
       (15 < List.length (strip q))%nat)
    (split_into_questions text).
Proof.
  rewrite split_into_questions_kept. unfold kept. apply Forall_forall.
  intros q Hq. apply filter_In in Hq. destruct Hq as [Hq Hlong].
  apply in_map_iff in Hq. destruct Hq as [s [<- _]].
  unfold long in Hlong. apply Nat.ltb_lt in Hlong.
  rewrite strip_idem. repeat split.
  - rewrite <- lstrip_strip. apply drop_while_stops.
  - unfold strip, rstrip. rewrite rev_involutive. apply drop_while_stops.
  - exact Hlong.
Qed.

(** C7, the claim as amended: on every text the two loops of the Segmenter
    end within as many rounds as the text has characters (more rounds change
    nothing), and no step of it can raise; on the empty text, and on every
    text that has no numbering marker once its carriage returns are stripped,
    it returns the empty sequence: the whole text is the one segment of the
    split, and it is discarded. *)
Theorem split_into_questions_total_and_degenerate (text : str) :
  (forall n m,
      (List.length text <= n)%nat -> (List.length text <= m)%nat ->
      split_into_questions_rounds n m text = split_into_questions text) /\
  split_into_questions [] = [] /\
  (~ has_marker (remove_cr text) ->
   re_split pattern (remove_cr text) = [remove_cr text] /\
   split_into_questions text = []).
Proof.
  split; [|split].
  - intros n m. apply split_into_questions_rounds_eq.
  - reflexivity.
  - intros Hno. rewrite split_into_questions_kept.
    assert (re_split pattern (remove_cr text) = [remove_cr text]) as ->.
    { symmetry. apply split_at_markers_fun, split_last, Hno. }
    split; reflexivity.
Qed.

Lemma split_into_questions_total_and_degenerate_witness :
  ~ has_marker (remove_cr paper_no_numbers) /\
  split_into_questions paper_no_numbers = [].
Proof.
  assert (~ has_marker (remove_cr paper_no_numbers)) as H.
  { apply search_none. vm_compute. reflexivity. }
  split; [exact H|].
  apply (proj2 (proj2 (proj2 (split_into_questions_total_and_degenerate
                         paper_no_numbers)) H)).
Defined.

(** C7 as stated fails: in [1\r. What is object oriented programming?] the
    digit is followed by a carriage return, not by a delimiter, so the text
    contains no numbering marker; the carriage return is stripped first, the
    marker [1. ] appears, and the Segmenter returns a question. *)
Lemma marker_made_by_stripping :
  ~ has_marker paper_broken_marker /\
  split_into_questions paper_broken_marker
  = [utf8 "What is object oriented programming?"].
Proof.
  split; [|vm_compute; reflexivity].
  apply search_none. vm_compute. reflexivity.
Qed.

(** ** [Counter] *)

Section StrEq.
Lemma str_eqb_eq a : forall b, str_eqb a b = true <-> a = b.
Proof.
  induction a as [|x a IH]; intros [|y b]; simpl; split; try congruence.
  - intros H. apply andb_true_iff in H. destruct H as [Hx Hab].
    apply N.eqb_eq in Hx. apply IH in Hab. congruence.
  - intros [= -> ->]. rewrite N.eqb_refl. apply IH. reflexivity.
Qed.

Lemma str_eqb_refl a : str_eqb a a = true.
Proof. apply str_eqb_eq. reflexivity. Qed.

Lemma str_eqb_neq a b : str_eqb a b = false <-> a <> b.
Proof.
  destruct (str_eqb a b) eqn:E.
  - apply str_eqb_eq in E. split; [discriminate | contradiction].
  - split; [|reflexivity]. intros _ H. apply str_eqb_eq in H. congruence.
Qed.

Lemma str_eq_dec (a b : str) : {a = b} + {a <> b}.
Proof.
  destruct (str_eqb a b) eqn:E.
  - left. apply str_eqb_eq, E.
  - right. apply str_eqb_neq, E.
Qed.
End StrEq.

Section Occurrences.
Lemma occurrences_app k l1 l2 :
  occurrences k (l1 ++ l2) = (occurrences k l1 + occurrences k l2)%nat.
Proof. unfold occurrences. rewrite filter_app, length_app. reflexivity. Qed.

Lemma occurrences_absent k l : ~ In k l -> occurrences k l = 0%nat.
Proof.
  unfold occurrences. induction l as [|x l IH]; intros H; simpl; [reflexivity|].
  destruct (str_eqb k x) eqn:E.
  - apply str_eqb_eq in E. subst. exfalso. apply H. left. reflexivity.
  - apply IH. intros Hin. apply H. right. exact Hin.
Qed.

Lemma occurrences_present k l : In k l -> (0 < occurrences k l)%nat.
Proof.
  unfold occurrences. induction l as [|x l IH]; intros H; simpl; [destruct H|].
  destruct (str_eqb k x) eqn:E; [simpl; lia|].
  destruct H as [-> | H]; [|exact (IH H)].
  rewrite str_eqb_refl in E. discriminate.
Qed.

Lemma occurrences_one k k' :
  occurrences k' [k] = if str_eqb k' k then 1%nat else 0%nat.
Proof. unfold occurrences. simpl. destruct (str_eqb k' k); reflexivity. Qed.
End Occurrences.

Section CountElement.
Variable k : str.

Lemma count_element_sum d :
  list_sum (map snd (count_element k d)) = S (list_sum (map snd d)).
Proof.
  induction d as [|[k0 c0] r IH]; simpl; [reflexivity|].
  destruct (str_eqb k0 k); simpl; [reflexivity|]. rewrite IH. lia.
Qed.

Lemma count_element_keys_old d :
  In k (keys d) -> keys (count_element k d) = keys d.
Proof.
  induction d as [|[k0 c0] r IH]; simpl; [intros []|].
  destruct (str_eqb k0 k) eqn:E; [reflexivity|]. intros [H | H].
  - apply str_eqb_neq in E. contradiction.
  - simpl. rewrite (IH H). reflexivity.
Qed.

Lemma count_element_keys_new d :
  ~ In k (keys d) -> keys (count_element k d) = keys d ++ [k].
Proof.
  induction d as [|[k0 c0] r IH]; simpl; [reflexivity|]. intros H.
  destruct (str_eqb k0 k) eqn:E.
  - apply str_eqb_eq in E. exfalso. apply H. left. exact E.
  - simpl. rewrite IH; [reflexivity|]. intros Hin. apply H. right. exact Hin.
Qed.

(** Where an entry of the updated dictionary comes from. *)
Lemma count_element_In d k' c' :
  NoDup (keys d) ->
  In (k', c') (count_element k d) ->
  (k' <> k /\ In (k', c') d) \/
  (k' = k /\ ~ In k (keys d) /\ c' = 1%nat) \/
  (k' = k /\ exists c, In (k, c) d /\ c' = S c).
Proof.
  induction d as [|[k0 c0] r IH]; simpl; intros Hnd Hin.
  - destruct Hin as [[= <- <-] | []]. right. left. tauto.
  - inversion Hnd as [|? ? Hk0 Hr]; subst.
    destruct (str_eqb k0 k) eqn:E.
    + apply str_eqb_eq in E. subst k0. destruct Hin as [[= <- <-] | Hin].
      * right. right. split; [reflexivity|]. exists c0. tauto.
      * left. split; [|right; exact Hin].
        intros ->. apply Hk0. apply (in_map fst) in Hin. exact Hin.
    + apply str_eqb_neq in E. destruct Hin as [[= <- <-] | Hin].
      * left. split; [exact E | left; reflexivity].
      * destruct (IH Hr Hin) as [[Hne H] | [[-> [Hnew ->]] | [-> [c [H ->]]]]].
        -- left. tauto.
        -- right. left. repeat split. intros [H | H]; contradiction.
        -- right. right. split; [reflexivity|]. exists c. tauto.
Qed.
End CountElement.

Section CounterFacts.
Lemma counted_step d seen k :
  counted d seen -> counted (count_element k d) (seen ++ [k]).
Proof.
  intros [Hnd [Hkeys Hocc]].
  destruct (in_dec str_eq_dec k (keys d)) as [Hold | Hnew]; repeat split.
  - rewrite count_element_keys_old by exact Hold. exact Hnd.
  - rewrite count_element_keys_old by exact Hold. intros H.
    apply in_or_app. left. apply Hkeys, H.
  - rewrite count_element_keys_old by exact Hold. intros H.
    apply in_app_or in H. destruct H as [H | [<- | []]];
      [apply Hkeys, H | exact Hold].
  - intros k' c' Hin. rewrite occurrences_app, occurrences_one.
    destruct (count_element_In k d k' c' Hnd Hin)
      as [[Hne H] | [[-> [Hno _]] | [-> [c [H ->]]]]].
    + apply str_eqb_neq in Hne. rewrite Hne. rewrite (Hocc _ _ H). lia.
    + contradiction.
    + rewrite str_eqb_refl. rewrite (Hocc _ _ H). lia.
  - rewrite count_element_keys_new by exact Hnew.
    apply NoDup_app.
    + exact Hnd.
    + constructor; [intros [] | constructor].
    + intros x Hx [<- | []]. contradiction.
  - rewrite count_element_keys_new by exact Hnew. intros H.
    apply in_app_or in H. apply in_or_app.
    destruct H as [H | H]; [left; apply Hkeys, H | right; exact H].
  - rewrite count_element_keys_new by exact Hnew. intros H.
    apply in_app_or in H. apply in_or_app.
    destruct H as [H | H]; [left; apply Hkeys, H | right; exact H].
  - intros k' c' Hin. rewrite occurrences_app, occurrences_one.
    destruct (count_element_In k d k' c' Hnd Hin)
      as [[Hne H] | [[-> [_ ->]] | [-> [c [H _]]]]].
    + apply str_eqb_neq in Hne. rewrite Hne. rewrite (Hocc _ _ H). lia.
    + rewrite str_eqb_refl. rewrite occurrences_absent; [reflexivity|].
      intros H. apply Hnew, Hkeys, H.
    + exfalso. apply Hnew. apply (in_map fst) in H. exact H.
Qed.

Lemma counted_fold l :
  forall d seen,
    counted d seen ->
    counted (fold_left (fun d k => count_element k d) l d) (seen ++ l).
Proof.
  induction l as [|k l IH]; intros d seen H; simpl.
  - rewrite app_nil_r. exact H.
  - replace (seen ++ k :: l) with ((seen ++ [k]) ++ l)
      by (rewrite <- app_assoc; reflexivity).
    apply IH, counted_step, H.
Qed.

Lemma Counter_counted l : counted (Counter l) l.
Proof.
  apply (counted_fold l [] []). unfold counted. simpl. split; [|split].
  - constructor.
  - tauto.
  - intros ? ? [].
Qed.

Lemma Counter_In l k c :
  In (k, c) (Counter l) <-> In k l /\ c = occurrences k l.
Proof.
  destruct (Counter_counted l) as [_ [Hkeys Hocc]]. split.
  - intros H. split; [|apply Hocc, H]. apply Hkeys.
    apply (in_map fst) in H. exact H.
  - intros [Hk ->]. apply Hkeys in Hk. apply in_map_iff in Hk.
    destruct Hk as [[k' c'] [E H]]. simpl in E. subst k'.
    rewrite <- (Hocc _ _ H). exact H.
Qed.

Lemma Counter_sum l : list_sum (map snd (Counter l)) = List.length l.
Proof.
  unfold Counter.
  assert (forall d,
             list_sum (map snd (fold_left (fun d k => count_element k d) l d))
             = (List.length l + list_sum (map snd d))%nat) as H.
  { induction l as [|k l IH]; intros d; simpl; [reflexivity|].
    rewrite IH, count_element_sum. lia. }
  rewrite H. simpl. lia.
Qed.
End CounterFacts.

(** ** The repeat detector *)

Lemma next_first {A} (P : A -> bool) (l : list A) :
  (exists x, In x l /\ P x = true) ->
  exists earlier x later,
    l = earlier ++ x :: later /\ P x = true /\
    (forall y, In y earlier -> P y = false) /\
    next (filter P l) = Returned x.
Proof.
  induction l as [|a l IH]; intros [x [Hin Hx]]; [destruct Hin|].
  destruct (P a) eqn:Ha.
  - exists [], a, l. simpl. rewrite Ha. repeat split. intros y [].
  - destruct Hin as [-> | Hin]; [congruence|].
    destruct IH as [earlier [x' [later [-> [Hx' [Hearlier Hnext]]]]]].
    { exists x. split; assumption. }
    exists (a :: earlier), x', later. simpl. rewrite Ha.
    repeat split; [exact Hx'| |exact Hnext].
    intros y [<- | Hy]; [exact Ha | apply Hearlier, Hy].
Qed.

Section Detector.
Variable U : case_tables.

Lemma counts_In qs k c :
  In (k, c) (counts U qs) <->
  In k (normalized U qs) /\ c = occurrences k (normalized U qs).
Proof. apply Counter_In. Qed.

Lemma counts_key_question qs k c :
  In (k, c) (counts U qs) -> exists q, In q qs /\ normalize U q = k.
Proof.
  intros H. apply counts_In in H. destruct H as [H _].
  apply in_map_iff in H. destruct H as [q [E Hq]]. exists q. tauto.
Qed.

(** Every question is counted in the group of its normalized form, and in
    no other entry. *)
Lemma counts_question qs q :
  In q qs ->
  exists c,
    In (normalize U q, c) (counts U qs) /\
    c = occurrences (normalize U q) (normalized U qs) /\ (0 < c)%nat /\
    forall c', In (normalize U q, c') (counts U qs) -> c' = c.
Proof.
  intros Hq.
  assert (In (normalize U q) (normalized U qs)) as Hk by (apply in_map, Hq).
  exists (occurrences (normalize U q) (normalized U qs)).
  repeat split.
  - apply counts_In. tauto.
  - apply occurrences_present, Hk.
  - intros c' Hc'. apply counts_In in Hc'. tauto.
Qed.

Lemma counts_keys_NoDup qs : NoDup (keys (counts U qs)).
Proof. apply Counter_counted. Qed.

Lemma repeated_In qs k c :
  In (k, c) (repeated U qs) <-> In (k, c) (counts U qs) /\ (1 < c)%nat.
Proof.
  unfold repeated. rewrite filter_In. simpl. rewrite Nat.ltb_lt. reflexivity.
Qed.

(** The lookup of an original text finds the first question of the group. *)
Lemma next_original qs k :
  (exists q, In q qs /\ normalize U q = k) ->
  exists orig,
    next (filter (fun q => str_eqb (normalize U q) k) qs) = Returned orig /\
    first_match U qs k orig.
Proof.
  intros [q [Hq Hk]].
  destruct (next_first (fun q => str_eqb (normalize U q) k) qs)
    as [earlier [orig [later [E [Horig [Hearlier Hnext]]]]]].
  { exists q. split; [exact Hq | apply str_eqb_eq, Hk]. }
  exists orig. split; [exact Hnext|]. exists earlier, later.
  repeat split; [exact E | apply str_eqb_eq, Horig |].
  intros y Hy. apply str_eqb_neq, Hearlier, Hy.
Qed.

Lemma map_back_spec qs groups :
  (forall k c, In (k, c) groups -> exists q, In q qs /\ normalize U q = k) ->
  forall acc,
  exists readable,
    map_back U qs groups acc = Returned (acc ++ readable) /\
    Forall2 (fun g r => snd r = snd g /\ first_match U qs (fst g) (fst r))
            groups readable.
Proof.
  induction groups as [|[k c] groups IH]; intros Hkeys acc.
  - exists []. rewrite app_nil_r. split; [reflexivity | constructor].
  - destruct (next_original qs k) as [orig [Hnext Hfirst]].
    { apply (Hkeys k c). left. reflexivity. }
    destruct (IH (fun k' c' H => Hkeys k' c' (or_intror H)) (acc ++ [(orig, c)]))
      as [readable [Hrun Hall]].
    exists ((orig, c) :: readable). split.
    + simpl. rewrite Hnext, Hrun. rewrite <- app_assoc. reflexivity.
    + constructor; [split; [reflexivity | exact Hfirst] | exact Hall].
Qed.

(** The mapping loop never raises, and gives each repeated group, in the order
    of the groups, its count and its first original. *)
Lemma repeated_readable_spec qs :
  exists readable,
    repeated_readable U qs = Returned readable /\
    Forall2 (fun g r => snd r = snd g /\ first_match U qs (fst g) (fst r))
            (repeated U qs) readable.
Proof.
  destruct (map_back_spec qs (repeated U qs)) with (acc := @nil (str * nat))
    as [readable H].
  - intros k c H. apply repeated_In in H. destruct H as [H _].
    apply (counts_key_question qs k c H).
  - exists readable. exact H.
Qed.

Lemma readable_In qs readable orig c :
  Forall2 (fun g r => snd r = snd g /\ first_match U qs (fst g) (fst r))
          (repeated U qs) readable ->
  In (orig, c) readable ->
  exists k, In (k, c) (repeated U qs) /\ first_match U qs k orig.
Proof.
  intros Hall Hin. induction Hall as [|[k c0] [o c1] gs rs [Hc Hf] _ IH].
  - destruct Hin.
  - destruct Hin as [[= -> ->] | Hin].
    + simpl in Hc, Hf. subst c0. exists k. split; [left; reflexivity | exact Hf].
    + destruct (IH Hin) as [k' [H1 H2]]. exists k'. split; [right|]; assumption.
Qed.
End Detector.

(** ** [sorted] *)

Section SortedFacts.
Context {A : Type} (key : A -> nat).

Lemma insert_desc_perm x l : Permutation (insert_desc key x l) (x :: l).
Proof.
  induction l as [|y r IH]; simpl; [reflexivity|].
  destruct (key x <? key y)%nat; [|reflexivity].
  rewrite IH. apply perm_swap.
Qed.

Lemma sorted_reverse_perm l : Permutation (sorted_reverse key l) l.
Proof.
  induction l as [|x l IH]; simpl; [reflexivity|].
  rewrite insert_desc_perm. constructor. exact IH.
Qed.

Lemma insert_desc_sorted x l :
  Sorted (descending_by key) l -> Sorted (descending_by key) (insert_desc key x l).
Proof.
  induction 1 as [|y r Hr IH Hhd]; simpl.
  - repeat constructor.
  - destruct (key x <? key y)%nat eqn:E.
    + apply Nat.ltb_lt in E. constructor; [exact IH|].
      destruct r as [|z r]; simpl.
      * constructor. unfold descending_by. lia.
      * inversion Hhd; subst.
        destruct (key x <? key z)%nat; constructor;
          [assumption | unfold descending_by; lia].
    + apply Nat.ltb_ge in E. constructor.
      * constructor; assumption.
      * constructor. exact E.
Qed.

Lemma sorted_reverse_sorted l : StronglySorted (descending_by key) (sorted_reverse key l).
Proof.
  apply Sorted_StronglySorted.
  - intros a b c Hab Hbc. unfold descending_by in *. lia.
  - induction l as [|x l IH]; simpl; [constructor|].
    apply insert_desc_sorted, IH.
Qed.

(** Stability: the elements that have one and the same key keep their
    order. *)
Lemma insert_desc_stable n x l :
  filter (fun y => key y =? n)%nat (insert_desc key x l)
  = filter (fun y => key y =? n)%nat (x :: l).
Proof.
  induction l as [|y r IH]; [reflexivity|]. cbn [insert_desc].
  destruct (key x <? key y)%nat eqn:E; [|reflexivity].
  apply Nat.ltb_lt in E. cbn [filter] in *. rewrite IH.
  destruct (key x =? n)%nat eqn:Ex; [|reflexivity].
  apply Nat.eqb_eq in Ex.
  destruct (key y =? n)%nat eqn:Ey; [|reflexivity].
  apply Nat.eqb_eq in Ey. lia.
Qed.

Lemma sorted_reverse_stable n l :
  filter (fun y => key y =? n)%nat (sorted_reverse key l)
  = filter (fun y => key y =? n)%nat l.
Proof.
  induction l as [|x l IH]; [reflexivity|]. cbn [sorted_reverse fold_right].
  rewrite insert_desc_stable. cbn [filter]. fold (sorted_reverse key l).
  rewrite IH. reflexivity.
Qed.
End SortedFacts.

(** ** [str.lower] *)

Section LowerFacts.
Variable U : case_tables.

Lemma lower_ucs4_plain before c after :
  c <> CAPITAL_SIGMA -> lower_ucs4 U before c after = tolower_full U c.
Proof.
  intros H. unfold lower_ucs4. apply N.eqb_neq in H. rewrite H. reflexivity.
Qed.

Lemma handle_capital_sigma_eq before after :
  handle_capital_sigma U before after
  = if cased_before U before && uncased_after U after
    then FINAL_SIGMA else SMALL_SIGMA.
Proof.
  unfold handle_capital_sigma. fold (cased_before U before).
  fold (uncased_after U after).
  destruct (cased_before U before); reflexivity.
Qed.

Lemma cased_before_cons c before :
  cased_before U (c :: before)
  = if is_case_ignorable U c then cased_before U before else is_cased U c.
Proof.
  unfold cased_before. simpl. destruct (is_case_ignorable U c); reflexivity.
Qed.

Lemma uncased_after_app s t :
  uncased_after U t = true -> uncased_after U (s ++ t) = uncased_after U s.
Proof.
  intros Ht. unfold uncased_after in *.
  induction s as [|c s IH]; simpl; [exact Ht|].
  destruct (is_case_ignorable U c); [exact IH | reflexivity].
Qed.

(** The text before matters only through what the sigma rule sees of it. *)
Lemma do_lower_before s :
  forall b1 b2,
    cased_before U b1 = cased_before U b2 ->
    do_lower U b1 s = do_lower U b2 s.
Proof.
  induction s as [|c s IH]; intros b1 b2 Hb; simpl; [reflexivity|].
  f_equal.
  - unfold lower_ucs4. destruct (c =? CAPITAL_SIGMA); [|reflexivity].
    rewrite !handle_capital_sigma_eq, Hb. reflexivity.
  - apply IH. rewrite !cased_before_cons, Hb. reflexivity.
Qed.

Lemma do_lower_app s t :
  uncased_after U t = true ->
  forall before,
    do_lower U before (s ++ t)
    = do_lower U before s ++ do_lower U (rev s ++ before) t.
Proof.
  intros Ht. induction s as [|c s IH]; intros before; simpl; [reflexivity|].
  rewrite IH, <- !app_assoc. simpl. f_equal.
  unfold lower_ucs4. destruct (c =? CAPITAL_SIGMA); [|reflexivity].
  rewrite !handle_capital_sigma_eq, uncased_after_app by exact Ht.
  reflexivity.
Qed.

Lemma do_lower_plain s :
  ~ In CAPITAL_SIGMA s ->
  forall before t,
    do_lower U before (s ++ t)
    = flat_map (tolower_full U) s ++ do_lower U (rev s ++ before) t.
Proof.
  induction s as [|c s IH]; intros Hs before t; simpl; [reflexivity|].
  rewrite lower_ucs4_plain by (intros ->; apply Hs; left; reflexivity).
  rewrite IH by (intros H; apply Hs; right; exact H).
  rewrite <- !app_assoc. reflexivity.
Qed.

Lemma lower_plain s :
  ~ In CAPITAL_SIGMA s -> lower U s = flat_map (tolower_full U) s.
Proof.
  intros Hs. unfold lower. rewrite <- (app_nil_r s) at 1.
  rewrite do_lower_plain by exact Hs. simpl. apply app_nil_r.
Qed.

Lemma differ_in_case_refl a : differ_in_case U a a.
Proof. induction a; constructor; [reflexivity | assumption]. Qed.

Lemma differ_in_case_flat_map a b :
  differ_in_case U a b ->
  flat_map (tolower_full U) a = flat_map (tolower_full U) b.
Proof.
  induction 1 as [|x y a b Hxy _ IH]; simpl; [reflexivity|].
  rewrite Hxy, IH. reflexivity.
Qed.

Hypothesis caseless : whitespace_caseless U.

Lemma whitespace_not_sigma w : all isspace w -> ~ In CAPITAL_SIGMA w.
Proof.
  intros Hw Hin. unfold all in Hw. rewrite Forall_forall in Hw.
  apply Hw in Hin. discriminate Hin.
Qed.

Lemma flat_map_whitespace w :
  all isspace w -> flat_map (tolower_full U) w = w.
Proof.
  induction 1 as [|c w Hc _ IH]; simpl; [reflexivity|].
  destruct (caseless c Hc) as [-> _]. rewrite IH. reflexivity.
Qed.

Lemma uncased_after_whitespace w : all isspace w -> uncased_after U w = true.
Proof.
  intros Hw. unfold uncased_after. destruct Hw as [|c w Hc _]; [reflexivity|].
  destruct (caseless c Hc) as [_ [Hcased Hign]]. simpl.
  rewrite Hign, Hcased. reflexivity.
Qed.

Lemma cased_before_whitespace w : all isspace w -> cased_before U w = false.
Proof.
  intros Hw. unfold cased_before. destruct Hw as [|c w Hc _]; [reflexivity|].
  destruct (caseless c Hc) as [_ [Hcased Hign]]. simpl.
  rewrite Hign. exact Hcased.
Qed.

(** Whitespace around a text is lowered to itself and leaves the lowering of
    the text as it is. *)
Lemma lower_outer_whitespace w1 a w2 :
  all isspace w1 -> all isspace w2 ->
  lower U (w1 ++ a ++ w2) = w1 ++ lower U a ++ w2.
Proof.
  intros H1 H2. unfold lower.
  rewrite do_lower_plain by (apply whitespace_not_sigma, H1).
  rewrite flat_map_whitespace by exact H1. f_equal.
  rewrite (do_lower_before _ (rev w1 ++ []) []).
  - rewrite do_lower_app by (apply uncased_after_whitespace, H2). f_equal.
    rewrite <- (app_nil_r w2) at 1.
    rewrite do_lower_plain by (apply whitespace_not_sigma, H2).
    rewrite flat_map_whitespace by exact H2. apply app_nil_r.
  - rewrite app_nil_r. apply cased_before_whitespace, all_rev, H1.
Qed.

Lemma normalize_outer_whitespace w1 a w2 :
  all isspace w1 -> all isspace w2 ->
  normalize U (w1 ++ a ++ w2) = normalize U a.
Proof.
  intros H1 H2. unfold normalize.
  rewrite lower_outer_whitespace by assumption.
  apply strip_ws; assumption.
Qed.

Lemma differ_outside_sigma_normalize A B :
  differ_outside_sigma U A B -> normalize U A = normalize U B.
Proof.
  intros [w1 [a [w2 [w3 [b [w4 [-> [-> [H1 [H2 [H3 [H4 [Hab Hs]]]]]]]]]]]]].
  rewrite !normalize_outer_whitespace by assumption.
  destruct Hs as [-> | [Ha Hb]]; [reflexivity|].
  unfold normalize. rewrite !lower_plain by assumption.
  rewrite (differ_in_case_flat_map a b Hab). reflexivity.
Qed.
End LowerFacts.

Lemma latin_greek_caseless : whitespace_caseless latin_greek.
Proof.
  intros c H. apply isspace_table in H. unfold whitespace_table in H.
  simpl in H.
  repeat (destruct H as [<- | H]; [vm_compute; repeat split|]).
  contradiction.
Qed.

(** ** The script *)

Section ScriptFacts.
Variable U : case_tables.
Variable s : session.

Lemma show_repeated_run groups :
  forall t, show_repeated groups t = (Returned tt, t ++ map repeated_line groups).
Proof.
  induction groups as [|g groups IH]; intros t; simpl.
  - rewrite app_nil_r. reflexivity.
  - unfold bind, emit. rewrite IH, <- app_assoc. reflexivity.
Qed.

Lemma question_paper_analysis_none t :
  all_questions s = [] ->
  question_paper_analysis U s t
  = (Returned tt,
     t ++ [st_spinner (utf8 "Reading question papers and finding patterns...");
           st_error
             (utf8 ("Could not find questions. "
                    ++ "Check if the PDFs are scanned images instead of text."))]).
Proof.
  intros H. unfold question_paper_analysis. rewrite H.
  cbv [bind emit ret]. rewrite <- app_assoc. reflexivity.
Qed.

Lemma question_paper_analysis_found t readable :
  all_questions s <> [] ->
  repeated_readable U (all_questions s) = Returned readable ->
  question_paper_analysis U s t
  = match completion s (pattern_prompt (all_questions s)) with
    | Returned content =>
      (Returned tt,
       t ++ analysis_trace (all_questions s) readable
         ++ [st_subheader (utf8 "📈 High-Chance Topics & Study Plan");
             st_write (strip content)])
    | Raised e => (Raised e, t ++ analysis_trace (all_questions s) readable)
    end.
Proof.
  intros Hne Hr. unfold question_paper_analysis, analysis_trace.
  destruct (all_questions s) as [|q qs] eqn:E; [congruence|].
  cbv [bind emit ret lift raise call_llm]. rewrite Hr.
  destruct readable as [|g gs]; cbv [repeats_block].
  - destruct (completion s (pattern_prompt (q :: qs)));
      rewrite <- ?app_assoc; reflexivity.
  - rewrite show_repeated_run.
    destruct (completion s (pattern_prompt (q :: qs)));
      rewrite <- ?app_assoc; reflexivity.
Qed.

(** The events of the analysis, whatever the completion service does. *)
Lemma question_paper_analysis_events readable :
  all_questions s <> [] ->
  repeated_readable U (all_questions s) = Returned readable ->
  exists rest,
    snd (run (question_paper_analysis U s))
    = analysis_trace (all_questions s) readable ++ rest /\
    Forall (fun e => is_markdown e = false /\ is_write_int e = false
                     /\ is_chat_completion e = false) rest.
Proof.
  intros Hne Hr. unfold run.
  rewrite (question_paper_analysis_found [] readable Hne Hr).
  destruct (completion s (pattern_prompt (all_questions s))); simpl.
  - eexists. split; [reflexivity|]. repeat constructor.
  - exists []. rewrite app_nil_r. split; [reflexivity | constructor].
Qed.
End ScriptFacts.

Section TraceFacts.
Lemma repeated_lines_markdown l :
  filter is_markdown (map repeated_line l) = map repeated_line l.
Proof.
  induction l as [|[q c] l IH]; simpl; [reflexivity|]. rewrite IH. reflexivity.
Qed.

Lemma repeated_lines_no_count l :
  filter is_write_int (map repeated_line l) = [].
Proof. induction l as [|[q c] l IH]; simpl; [reflexivity | exact IH]. Qed.

Lemma repeated_lines_no_request l :
  filter is_chat_completion (map repeated_line l) = [].
Proof. induction l as [|[q c] l IH]; simpl; [reflexivity | exact IH]. Qed.

Lemma analysis_trace_counts qs readable :
  filter is_write_int (analysis_trace qs readable)
  = [st_write_int (List.length qs)].
Proof.
  unfold analysis_trace. rewrite !filter_app.
  destruct readable as [|g gs]; [reflexivity|]. unfold repeats_block.
  cbn [filter is_write_int]. rewrite repeated_lines_no_count. reflexivity.
Qed.

Lemma analysis_trace_lines qs readable :
  filter is_markdown (analysis_trace qs readable)
  = map repeated_line (sorted_reverse snd readable).
Proof.
  unfold analysis_trace. rewrite !filter_app.
  destruct readable as [|g gs]; [reflexivity|]. unfold repeats_block.
  cbn [filter is_markdown]. rewrite repeated_lines_markdown.
  cbn [List.app]. apply app_nil_r.
Qed.

Lemma analysis_trace_request qs readable :
  filter is_chat_completion (analysis_trace qs readable)
  = [chat_completion (pattern_prompt qs)].
Proof.
  unfold analysis_trace. rewrite !filter_app.
  destruct readable as [|g gs]; [reflexivity|]. unfold repeats_block.
  cbn [filter is_chat_completion]. rewrite repeated_lines_no_request.
  reflexivity.
Qed.

Lemma filter_none {A} (P : A -> bool) l :
  Forall (fun x => P x = false) l -> filter P l = [].
Proof.
  induction 1 as [|x l Hx _ IH]; simpl; [reflexivity|]. rewrite Hx. exact IH.
Qed.

(** What a run that found questions shows: one count, the lines of the
    repeated groups, one request. *)
Lemma analysis_shows U s :
  all_questions s <> [] ->
  exists readable,
    repeated_readable U (all_questions s) = Returned readable /\
    let trace := snd (run (question_paper_analysis U s)) in
    filter is_write_int trace
    = [st_write_int (List.length (all_questions s))] /\
    filter is_markdown trace
    = map repeated_line (sorted_reverse snd readable) /\
    filter is_chat_completion trace
    = [chat_completion (pattern_prompt (all_questions s))].
Proof.
  intros Hne.
  destruct (repeated_readable_spec U (all_questions s)) as [readable [Hr _]].
  exists readable. split; [exact Hr|].
  destruct (question_paper_analysis_events U s readable Hne Hr)
    as [rest [-> Hrest]].
  cbv zeta. rewrite !filter_app.
  rewrite analysis_trace_counts, analysis_trace_lines, analysis_trace_request.
  rewrite !filter_none; [rewrite !app_nil_r; repeat split | | |];
    (eapply Forall_impl; [|exact Hrest]); cbv beta; tauto.
Qed.
End TraceFacts.

(** ** The claims about the repeat detector and the script *)

(** C3: the occurrence counts of the normalized groups sum to the number of
    questions; every question is counted in exactly one group, the one of its
    normalized form, whose count is the number of questions with that form;
    and the count a run reports is the number of questions. *)
Theorem counts_cover_all_questions (U : case_tables) (qs : list str) :
  list_sum (map snd (counts U qs)) = List.length qs /\
  NoDup (keys (counts U qs)) /\
  (forall q, In q qs ->
     exists c,
       In (normalize U q, c) (counts U qs) /\
       c = occurrences (normalize U q) (normalized U qs) /\ (0 < c)%nat /\
       forall c', In (normalize U q, c') (counts U qs) -> c' = c) /\
  (forall s, all_questions s = qs -> qs <> [] ->
     filter is_write_int (snd (run (question_paper_analysis U s)))
     = [st_write_int (List.length qs)]).
Proof.
  split; [|split; [|split]].
  - unfold counts. rewrite Counter_sum. apply length_map.
  - apply Counter_counted.
  - apply counts_question.
  - intros s <- Hne. destruct (analysis_shows U s Hne) as [_ [_ [H _]]].
    exact H.
Qed.

Lemma counts_cover_all_questions_witness :
  filter is_write_int (snd (run (question_paper_analysis latin_greek two_papers)))
  = [st_write_int 3].
Proof.
  apply (proj2 (proj2 (proj2 (counts_cover_all_questions
                                latin_greek (all_questions two_papers))))).
  - reflexivity.
  - vm_compute. discriminate.
Defined.




(** C5: every group that is shown as repeated has a count greater than 1, and
    the groups are shown in descending order of their counts: the list shown
    is a rearrangement of the repeated groups, it is descending, and the lines
    a run prints are its lines, in its order. *)
Theorem shown_groups_descending (U : case_tables) (qs : list str) :
  exists readable,
    repeated_readable U qs = Returned readable /\
    Forall (fun g => (1 < snd g)%nat) (sorted_reverse snd readable) /\
    StronglySorted descending (sorted_reverse snd readable) /\
    Permutation (sorted_reverse snd readable) readable /\
    forall s, all_questions s = qs -> qs <> [] ->
      filter is_markdown (snd (run (question_paper_analysis U s)))
      = map repeated_line (sorted_reverse snd readable).
Proof.
  destruct (repeated_readable_spec U qs) as [readable [Hr Hall]].
  exists readable. split; [exact Hr|]. split; [|split; [|split]].
  - apply Forall_forall. intros [orig c] Hin.
    apply (Permutation_in _ (sorted_reverse_perm snd readable)) in Hin.
    destruct (readable_In U qs readable orig c Hall Hin) as [k [Hk _]].
    apply repeated_In in Hk. simpl. tauto.
  - apply (sorted_reverse_sorted snd).
  - apply sorted_reverse_perm.
  - intros s <- Hne.
    destruct (analysis_shows U s Hne) as [readable' [Hr' [_ [H _]]]].
    rewrite Hr in Hr'. injection Hr' as <-. exact H.
Qed.

Lemma shown_groups_descending_witness :
  filter is_markdown (snd (run (question_paper_analysis latin_greek two_papers)))
  = [st_markdown (utf8 "**(2 papers)** Explain the OSI model in detail.")].
Proof.
  destruct (shown_groups_descending latin_greek (all_questions two_papers))
    as [readable [Hr [_ [_ [_ H]]]]].
  rewrite (H two_papers eq_refl); [|vm_compute; discriminate].
  vm_compute in Hr. injection Hr as <-. vm_compute. reflexivity.
Defined.

(** C6: the text shown for a repeated group is the first question of the
    input, in document order, whose normalization is the normalized form of
    the group, and it is that question as it was given. *)
Theorem representative_is_first_original (U : case_tables) (qs : list str) :
  exists readable,
    repeated_readable U qs = Returned readable /\
    Forall2 (fun g r => snd r = snd g /\ first_match U qs (fst g) (fst r))
            (repeated U qs) readable /\
    forall orig c,
      In (orig, c) (sorted_reverse snd readable) ->
      In orig qs /\
      exists q_norm,
        In (q_norm, c) (repeated U qs) /\ first_match U qs q_norm orig.
Proof.
  destruct (repeated_readable_spec U qs) as [readable [Hr Hall]].
  exists readable. split; [exact Hr|]. split; [exact Hall|].
  intros orig c Hin.
  apply (Permutation_in _ (sorted_reverse_perm snd readable)) in Hin.
  destruct (readable_In U qs readable orig c Hall Hin) as [k [Hk Hf]].
  split; [|exists k; tauto].
  destruct Hf as [earlier [later [-> _]]].
  apply in_or_app. right. left. reflexivity.
Qed.

Lemma representative_is_first_original_witness :
  In (utf8 "Explain the OSI model in detail.") (all_questions two_papers).
Proof.
  destruct (representative_is_first_original
              latin_greek (all_questions two_papers))
    as [readable [Hr [_ H]]].
  apply (H _ 2%nat). vm_compute in Hr. injection Hr as <-.
  vm_compute. left. reflexivity.
Defined.

Lemma py_slice_first {A} (l : list A) (n : nat) :
  py_slice l None (Some (Z.of_nat n)) = firstn (Nat.min n (List.length l)) l.
Proof.
  unfold py_slice, slice_bound.
  destruct (Z.of_nat n <? 0)%Z eqn:E; [apply Z.ltb_lt in E; lia|].
  rewrite Z.sub_0_r, <- Nat2Z.inj_min, Nat2Z.id. reflexivity.
Qed.

Lemma py_slice_50 {A} (l : list A) :
  py_slice l None (Some 50%Z) = firstn (Nat.min 50 (List.length l)) l.
Proof. exact (py_slice_first l 50). Qed.



(** C9: when the API credential is absent from the environment, a run shows
    the error message and stops there: nothing else is in its trace, so no
    file uploader is offered, no button, and no request is made. *)
Theorem missing_key_stops (U : case_tables) (s : session) :
  OPENAI_API_KEY s = None ->
  run (app_py U s)
  = (Raised StopException,
     [st_error
        (utf8 "OPENAI_API_KEY is not set. Please add it to your .env file.")])
  /\
  forall e, In e (snd (run (app_py U s))) ->
    (forall label, e <> st_file_uploader label) /\
    (forall label, e <> st_button label) /\
    (forall prompt, e <> chat_completion prompt).
Proof.
  intros H.
  assert (run (app_py U s)
          = (Raised StopException,
             [st_error
                (utf8 "OPENAI_API_KEY is not set. Please add it to your .env file.")]))
    as E.
  { unfold run, app_py. rewrite H. reflexivity. }
  split; [exact E|]. rewrite E. simpl.
  intros e [<- | []]. repeat split; intros; discriminate.
Qed.

Lemma missing_key_stops_witness :
  run (app_py latin_greek no_key)
  = (Raised StopException,
     [st_error
        (utf8 "OPENAI_API_KEY is not set. Please add it to your .env file.")]).
Proof.
  apply (proj1 (missing_key_stops latin_greek no_key eq_refl)).
Defined.

(** C10: for a non-empty list of questions, every normalized form that the
    counter holds with a count greater than 1 is the normalization of some
    question of the list; so the lookup of the first matching original returns
    a question, whose normalization is that form, and the loop over the
    repeated groups never raises [StopIteration]. *)
Theorem lookup_finds_original (U : case_tables) (qs : list str) (q_norm : str)
        (c : nat) :
  qs <> [] ->
  In (q_norm, c) (counts U qs) ->
  (1 < c)%nat ->
  (exists q, In q qs /\ normalize U q = q_norm) /\
  (exists orig,
      next (filter (fun q => str_eqb (normalize U q) q_norm) qs)
      = Returned orig /\
      In orig qs /\ normalize U orig = q_norm) /\
  exists readable, repeated_readable U qs = Returned readable.
Proof.
  intros _ Hin _.
  pose proof (counts_key_question U qs q_norm c Hin) as Hq.
  split; [exact Hq|]. split.
  - destruct (next_original U qs q_norm Hq)
      as [orig [Hnext [earlier [later [-> [Hn _]]]]]].
    exists orig. repeat split; [exact Hnext | | exact Hn].
    apply in_or_app. right. left. reflexivity.
  - destruct (repeated_readable_spec U qs) as [readable [Hr _]].
    exists readable. exact Hr.
Qed.

Lemma lookup_finds_original_witness :
  exists readable,
    repeated_readable latin_greek (all_questions two_papers)
    = Returned readable.
Proof.
  apply (lookup_finds_original
           latin_greek (all_questions two_papers)
           (utf8 "explain the osi model in detail.") 2).
  - vm_compute. discriminate.
  - vm_compute. left. reflexivity.
  - lia.
Defined.

(** ** Further properties of the Segmenter *)

Section Infix.
Lemma infix_refl s : infix s s.
Proof. exists [], []. rewrite app_nil_r. reflexivity. Qed.

Lemma infix_trans a b c : infix a b -> infix b c -> infix a c.
Proof.
  intros [p1 [q1 ->]] [p2 [q2 ->]]. exists (p2 ++ p1), (q1 ++ q2).
  rewrite <- !app_assoc. reflexivity.
Qed.

Lemma infix_In a b x : infix a b -> In x a -> In x b.
Proof.
  intros [p [q ->]] H. apply in_or_app. right. apply in_or_app. left. exact H.
Qed.

Lemma infix_length a b : infix a b -> (List.length a <= List.length b)%nat.
Proof. intros [p [q ->]]. rewrite !length_app. lia. Qed.

Lemma has_marker_infix a b : infix a b -> has_marker a -> has_marker b.
Proof.
  intros [p [q ->]] [pre [suf [-> [m [post [-> Hm]]]]]].
  exists (p ++ pre), (m ++ post ++ q). split.
  - rewrite <- !app_assoc. reflexivity.
  - exists m, (post ++ q). split; [reflexivity | exact Hm].
Qed.

(** [strip] takes whitespace away at both ends, and nothing else. *)
Lemma strip_split s :
  exists w1 w2, s = w1 ++ strip s ++ w2 /\ all isspace w1 /\ all isspace w2.
Proof.
  destruct (drop_while_split isspace s) as [w1 [E1 H1]].
  destruct (drop_while_split isspace (rev (lstrip s))) as [w2 [E2 H2]].
  exists w1, (rev w2). repeat split; [|exact H1|apply all_rev, H2].
  unfold strip, rstrip. fold (lstrip s) in E1. rewrite E1 at 1. f_equal.
  unfold lstrip at 2. rewrite <- rev_app_distr, <- E2, rev_involutive.
  reflexivity.
Qed.

Lemma strip_infix s : infix (strip s) s.
Proof. destruct (strip_split s) as [w1 [w2 [E _]]]. exists w1, w2. exact E. Qed.
End Infix.

Section Parts.
Lemma split_at_markers_infix s parts :
  split_at_markers s parts -> Forall (fun p => infix p s) parts.
Proof.
  induction 1 as [s _ | pre m rest parts _ _ _ _ IH].
  - constructor; [apply infix_refl | constructor].
  - constructor.
    + exists [], (m ++ rest). reflexivity.
    + eapply Forall_impl; [|exact IH]. intros p Hp.
      apply (infix_trans p rest); [exact Hp|].
      exists (pre ++ m), []. rewrite app_nil_r, <- app_assoc. reflexivity.
Qed.

(** No segment of the split holds a marker. *)
Lemma split_at_markers_clean s parts :
  split_at_markers s parts -> Forall (fun p => ~ has_marker p) parts.
Proof.
  induction 1 as [s Hno | pre m rest parts Hm Hbefore _ _ IH].
  - constructor; [exact Hno | constructor].
  - constructor; [|exact IH].
    intros [a [suf [-> [m' [post [-> Hm']]]]]].
    pose proof (marker_nonempty m' Hm') as Hlen.
    destruct m' as [|x m']; [simpl in Hlen; lia|].
    apply (Hbefore a x (m' ++ post)); [reflexivity|].
    exists (x :: m'), (post ++ m ++ rest). split; [|exact Hm'].
    simpl. rewrite <- !app_assoc. reflexivity.
Qed.

Lemma marker_length m : is_marker m -> (3 <= List.length m)%nat.
Proof.
  intros [ws [ds [d [ws' [-> [_ [Hds [_ [_ [Hws' _]]]]]]]]]].
  destruct ds; [congruence|]. destruct ws'; [congruence|].
  rewrite ?length_app. simpl. rewrite ?length_app. simpl. lia.
Qed.

(** Every segment but the first costs the text its own length and a marker
    of at least three characters. *)
Lemma split_at_markers_length s parts :
  split_at_markers s parts ->
  (List.length (hd [] parts)
   + list_sum (map (fun p => (List.length p + 3)%nat) (tl parts))
   <= List.length s)%nat.
Proof.
  induction 1 as [s _ | pre m rest parts Hm _ _ Hparts IH]; simpl; [lia|].
  apply marker_length in Hm. rewrite !length_app.
  destruct Hparts; simpl in *; lia.
Qed.
End Parts.

Section InOrder.
Lemma in_order_later qs : forall x s, in_order qs s -> in_order qs (x ++ s).
Proof.
  destruct qs as [|q qs]; intros x s; simpl; [trivial|].
  intros [gap [rest [-> H]]]. exists (x ++ gap), rest.
  rewrite <- app_assoc. split; [reflexivity | exact H].
Qed.

Lemma in_order_tail q qs s : in_order (q :: qs) s -> in_order qs s.
Proof.
  simpl. intros [gap [rest [-> H]]].
  rewrite app_assoc. apply in_order_later, H.
Qed.

Lemma in_order_strip qs : forall s, in_order qs s -> in_order (map strip qs) s.
Proof.
  induction qs as [|q qs IH]; intros s; simpl; [trivial|].
  intros [gap [rest [-> H]]].
  destruct (strip_split q) as [w1 [w2 [E _]]].
  exists (gap ++ w1), (w2 ++ rest). split.
  - rewrite E at 1. rewrite <- !app_assoc. reflexivity.
  - apply in_order_later, IH, H.
Qed.

Lemma in_order_filter (P : str -> bool) qs :
  forall s, in_order qs s -> in_order (filter P qs) s.
Proof.
  induction qs as [|q qs IH]; intros s H; simpl; [trivial|].
  destruct (P q).
  - simpl in *. destruct H as [gap [rest [-> H]]].
    exists gap, rest. split; [reflexivity | apply IH, H].
  - apply IH. apply (in_order_tail q), H.
Qed.

Lemma split_at_markers_in_order s parts :
  split_at_markers s parts -> in_order parts s.
Proof.
  induction 1 as [s _ | pre m rest parts _ _ _ _ IH]; simpl.
  - exists [], []. rewrite app_nil_r. split; [reflexivity | exact I].
  - exists [], (m ++ rest). split; [reflexivity|]. apply in_order_later, IH.
Qed.

Lemma in_order_infix qs : forall s, in_order qs s -> Forall (fun q => infix q s) qs.
Proof.
  induction qs as [|q qs IH]; intros s H; constructor.
  - destruct H as [gap [rest [-> _]]]. exists gap, rest. reflexivity.
  - apply IH. apply (in_order_tail q), H.
Qed.
End InOrder.

Section Segmenter.
Variable text : str.

Lemma kept_in_order : in_order (split_into_questions text) (remove_cr text).
Proof.
  rewrite split_into_questions_kept. unfold kept.
  pose proof (split_at_markers_in_order _ _
                (split_at_markers_split (remove_cr text))) as H.
  apply in_order_filter, in_order_strip.
  destruct (re_split pattern (remove_cr text)) as [|p parts]; [exact I|].
  apply (in_order_tail p), H.
Qed.

Lemma kept_infix :
  Forall (fun q => infix q (remove_cr text)) (split_into_questions text).
Proof. apply in_order_infix, kept_in_order. Qed.

Lemma remove_cr_clean : ~ In CR (remove_cr text).
Proof.
  unfold remove_cr. intros H. apply filter_In in H. destruct H as [_ H].
  rewrite N.eqb_refl in H. discriminate H.
Qed.

Lemma kept_from_parts q :
  In q (split_into_questions text) ->
  exists p, In p (re_split pattern (remove_cr text)) /\ q = strip p /\
            (15 < List.length q)%nat.
Proof.
  rewrite split_into_questions_kept. unfold kept. intros H.
  apply filter_In in H. destruct H as [H Hlong].
  apply in_map_iff in H. destruct H as [p [<- Hp]].
  exists p. repeat split; [|apply Nat.ltb_lt, Hlong].
  destruct (re_split pattern (remove_cr text)); [destruct Hp | right; exact Hp].
Qed.
End Segmenter.

Lemma remove_cr_fixed s : ~ In CR s -> remove_cr s = s.
Proof.
  intros H. unfold remove_cr. induction s as [|c s IH]; simpl; [reflexivity|].
  destruct (c =? CR) eqn:E.
  - apply N.eqb_eq in E. subst. exfalso. apply H. left. reflexivity.
  - simpl. rewrite IH; [reflexivity|]. intros Hin. apply H. right. exact Hin.
Qed.

Lemma no_marker_no_questions s :
  ~ has_marker (remove_cr s) -> split_into_questions s = [].
Proof.
  intros H. rewrite split_into_questions_kept.
  rewrite <- (split_at_markers_fun _ _ (split_last _ H)). reflexivity.
Qed.

(** X1: the questions the Segmenter returns stand in the text, once its
    carriage returns are stripped, one after another in the order returned and
    without overlap; each is a piece of that text as it is. *)
Theorem questions_stand_in_text (text : str) :
  in_order (split_into_questions text) (remove_cr text) /\
  Forall (fun q => infix q (remove_cr text)) (split_into_questions text).
Proof. split; [apply kept_in_order | apply kept_infix]. Qed.

Lemma questions_hold_no_marker_aux (text : str) :
  Forall (fun q => ~ In CR q /\ ~ has_marker q) (split_into_questions text).
Proof.
  apply Forall_forall. intros q Hq. split.
  - intros H. apply (remove_cr_clean text).
    pose proof (kept_infix text) as Hin. rewrite Forall_forall in Hin.
    apply (infix_In q _ CR (Hin q Hq) H).
  - destruct (kept_from_parts text q Hq) as [p [Hp [-> _]]].
    pose proof (split_at_markers_clean _ _
                  (split_at_markers_split (remove_cr text))) as Hclean.
    rewrite Forall_forall in Hclean. intros H. apply (Hclean p Hp).
    apply (has_marker_infix (strip p) p (strip_infix p) H).
Qed.

(** X2: no question the Segmenter returns holds a carriage return or a
    numbering marker, and the Segmenter finds no question inside a question it
    has returned. *)
Theorem questions_hold_no_marker (text : str) :
  Forall (fun q => ~ In CR q /\ ~ has_marker q /\ split_into_questions q = [])
         (split_into_questions text).
Proof.
  eapply Forall_impl; [|apply (questions_hold_no_marker_aux text)].
  cbv beta. intros q [Hcr Hno]. repeat split; [exact Hcr | exact Hno |].
  apply no_marker_no_questions. rewrite remove_cr_fixed by exact Hcr.
  exact Hno.
Qed.

Lemma kept_weight l :
  (list_sum (map (fun q => (List.length q + 3)%nat) (filter long (map strip l)))
   <= list_sum (map (fun p => (List.length p + 3)%nat) l))%nat.
Proof.
  induction l as [|p l IH]; simpl; [lia|].
  pose proof (infix_length _ _ (strip_infix p)) as Hp.
  destruct (long (strip p)); simpl; lia.
Qed.

Lemma weight_sum (l : list str) :
  list_sum (map (fun q => (List.length q + 3)%nat) l)
  = (list_sum (map (@List.length char) l) + 3 * List.length l)%nat.
Proof. induction l as [|q l IH]; simpl; [reflexivity | lia]. Qed.

Lemma weight_long (l : list str) :
  Forall (fun q => (15 < List.length q)%nat) l ->
  (19 * List.length l <= list_sum (map (fun q => (List.length q + 3)%nat) l))%nat.
Proof. induction 1 as [|q l Hq _ IH]; simpl in *; lia. Qed.

(** X3: every question returned costs the text its own characters and a
    marker of at least three: the lengths of the questions plus three per
    question do not exceed the length of the text, so a text of [n] characters
    yields at most [n / 19] questions. *)
Theorem questions_fit_in_text (text : str) :
  let qs := split_into_questions text in
  (list_sum (map (@List.length char) qs) + 3 * List.length qs
   <= List.length text)%nat /\
  (19 * List.length qs <= List.length text)%nat.
Proof.
  cbv zeta.
  assert (list_sum (map (fun q => (List.length q + 3)%nat) (split_into_questions text))
          <= List.length text)%nat as H.
  { rewrite split_into_questions_kept. unfold kept.
    pose proof (split_at_markers_length _ _
                  (split_at_markers_split (remove_cr text))) as Hlen.
    pose proof (kept_weight (tl (re_split pattern (remove_cr text)))) as Hk.
    pose proof (remove_cr_length text). lia. }
  split.
  - rewrite <- weight_sum. exact H.
  - etransitivity; [|exact H]. apply weight_long. apply Forall_forall.
    intros q Hq. destruct (kept_from_parts text q Hq) as [_ [_ [_ Hlen]]].
    exact Hlen.
Qed.

Lemma remove_cr_app a b : remove_cr (a ++ b) = remove_cr a ++ remove_cr b.
Proof. apply filter_app. Qed.

Lemma remove_cr_idem s : remove_cr (remove_cr s) = remove_cr s.
Proof. apply remove_cr_fixed, remove_cr_clean. Qed.

(** X4: carriage returns have no effect on the result: a carriage return put
    anywhere into the text changes nothing, and a text gives the questions of
    the same text without its carriage returns. *)
Theorem carriage_returns_ignored (a b : str) :
  split_into_questions (a ++ CR :: b) = split_into_questions (a ++ b) /\
  split_into_questions (remove_cr a) = split_into_questions a.
Proof.
  rewrite !split_into_questions_kept. split.
  - rewrite !remove_cr_app. reflexivity.
  - rewrite remove_cr_idem. reflexivity.
Qed.

(** X5: a text from which the Segmenter returns a question holds a decimal
    digit, one of the three delimiters and a whitespace character other than
    the carriage return. *)
Theorem questions_need_a_marker (text : str) :
  split_into_questions text <> [] ->
  (exists c, In c text /\ isdecimal c = true) /\
  (exists d, In d text /\ In d delimiters) /\
  (exists w, In w text /\ isspace w = true /\ w <> CR).
Proof.
  intros Hne.
  destruct (re_search pattern (remove_cr text)) as [[pre rest]|] eqn:E.
  - apply search_some in E.
    destruct E as [m [E [[ws [ds [d [ws' [-> [_ [Hds [Hdec [Hd [Hws' Hsp]]]]]]]]]] _]]].
    assert (forall x, In x (ws ++ ds ++ d :: ws') ->
                      In x text /\ x <> CR) as Hin.
    { intros x Hx.
      assert (In x (remove_cr text)) as H.
      { rewrite E. apply in_or_app. right. apply in_or_app. left. exact Hx. }
      split; [apply filter_In in H; tauto|].
      intros ->. apply (remove_cr_clean text H). }
    destruct ds as [|c ds]; [congruence|]. destruct ws' as [|w ws']; [congruence|].
    inversion Hdec; subst. inversion Hsp; subst. repeat split.
    + exists c. split; [|assumption]. apply Hin.
      apply in_or_app. right. left. reflexivity.
    + exists d. split; [|assumption]. apply Hin.
      apply in_or_app. right. apply in_or_app. right. left. reflexivity.
    + exists w. assert (In w text /\ w <> CR) as [Hw1 Hw2].
      { apply Hin. apply in_or_app. right. apply in_or_app. right.
        right. left. reflexivity. }
      repeat split; assumption.
  - exfalso. apply Hne. apply no_marker_no_questions. apply search_none, E.
Qed.

Lemma questions_need_a_marker_witness :
  (exists c, In c paper_three_questions /\ isdecimal c = true) /\
  (exists d, In d paper_three_questions /\ In d delimiters) /\
  (exists w, In w paper_three_questions /\ isspace w = true /\ w <> CR).
Proof.
  apply (questions_need_a_marker paper_three_questions).
  vm_compute. discriminate.
Defined.

(** ** [extract_text_from_pdf] and the loop over the papers *)

Lemma extract_text_from_pdf_pages pages :
  forall text,
    fold_left
      (fun text page_text =>
         if truthy page_text
         then match page_text with
              | Some page_text => text ++ page_text ++ [LF]
              | None => text
              end
         else text) pages text
    = text ++ flat_map page_line pages.
Proof.
  induction pages as [|p pages IH]; intros text; simpl.
  - symmetry. apply app_nil_r.
  - rewrite IH. destruct p as [[|c t]|]; simpl; rewrite <- ?app_assoc;
      simpl; rewrite <- ?app_assoc; reflexivity.
Qed.

Lemma extract_text_from_pdf_eq pdf :
  extract_text_from_pdf pdf = flat_map page_line pdf.
Proof. apply (extract_text_from_pdf_pages pdf []). Qed.

(** X6: the text extracted from a file is the text of its pages in order,
    each page that has text followed by a newline and the pages without text
    left out; it is empty exactly when no page has text, and the text of two
    runs of pages is the text of the first followed by the text of the
    second. *)
Theorem extract_text_from_pdf_by_page (pages more : pdf) :
  extract_text_from_pdf (pages ++ more)
  = extract_text_from_pdf pages ++ extract_text_from_pdf more /\
  (extract_text_from_pdf pages = [] <-> Forall no_text pages) /\
  Forall (fun page_text =>
            match page_text with
            | Some (c :: t) => infix ((c :: t) ++ [LF])
                                     (extract_text_from_pdf pages)
            | _ => True
            end) pages.
Proof.
  rewrite !extract_text_from_pdf_eq. split; [apply flat_map_app|]. split.
  - induction pages as [|p pages IH]; simpl.
    + split; [constructor | reflexivity].
    + destruct p as [[|c t]|]; simpl.
      * rewrite IH. split; [constructor; [reflexivity | assumption]|].
        intros H. inversion H. assumption.
      * split; [discriminate|]. intros H. inversion H as [|? ? Hp _].
        discriminate Hp.
      * rewrite IH. split; [constructor; [reflexivity | assumption]|].
        intros H. inversion H. assumption.
  - apply Forall_forall. intros p Hp. destruct p as [[|c t]|]; try exact I.
    apply in_split in Hp. destruct Hp as [l1 [l2 ->]].
    rewrite flat_map_app. simpl.
    exists (flat_map page_line l1), (flat_map page_line l2). reflexivity.
Qed.

Lemma extend_flat_map {A B} (f : A -> list B) l :
  forall acc, fold_left (fun acc x => acc ++ f x) l acc = acc ++ flat_map f l.
Proof.
  induction l as [|x l IH]; intros acc; simpl.
  - symmetry. apply app_nil_r.
  - rewrite IH, app_assoc. reflexivity.
Qed.

Lemma all_questions_eq s :
  all_questions s
  = flat_map (fun qp => split_into_questions (extract_text_from_pdf qp))
             (question_papers s).
Proof.
  unfold all_questions.
  apply (extend_flat_map
           (fun qp => split_into_questions (extract_text_from_pdf qp))).
Qed.

Lemma kept_trimmed text q :
  In q (split_into_questions text) ->
  strip q = q /\ (15 < List.length q)%nat.
Proof.
  intros H. destruct (kept_from_parts text q H) as [p [_ [-> Hlen]]].
  split; [apply strip_idem | exact Hlen].
Qed.

(** X7: the questions the analysis works on are the questions of the papers,
    paper after paper in upload order, and each of them is trimmed, longer
    than 15 characters, free of carriage returns and of numbering markers. *)
Theorem all_questions_by_paper (s : session) :
  all_questions s
  = flat_map (fun qp => split_into_questions (extract_text_from_pdf qp))
             (question_papers s) /\
  Forall (fun q => strip q = q /\ (15 < List.length q)%nat /\
                   ~ In CR q /\ ~ has_marker q)
         (all_questions s).
Proof.
  split; [apply all_questions_eq|]. rewrite all_questions_eq.
  apply Forall_forall. intros q Hq. apply in_flat_map in Hq.
  destruct Hq as [qp [_ Hq]].
  destruct (kept_trimmed _ q Hq) as [Hs Hl].
  pose proof (questions_hold_no_marker_aux (extract_text_from_pdf qp)) as H.
  rewrite Forall_forall in H. destruct (H q Hq) as [Hcr Hno].
  repeat split; assumption.
Qed.

(** ** Further properties of the repeat detector *)

Section Repeats.
Lemma repeated_weight (d : dict nat) :
  (2 * List.length (filter (fun qc => (1 <? snd qc)%nat) d)
   <= list_sum (map snd (filter (fun qc => (1 <? snd qc)%nat) d)))%nat /\
  (list_sum (map snd (filter (fun qc => (1 <? snd qc)%nat) d))
   <= list_sum (map snd d))%nat.
Proof.
  induction d as [|[k c] d [IH1 IH2]]; simpl; [lia|].
  destruct (1 <? c)%nat eqn:E; simpl; [apply Nat.ltb_lt in E|]; lia.
Qed.

Lemma occurrences_cons k x l :
  occurrences k (x :: l)
  = ((if str_eqb k x then 1 else 0) + occurrences k l)%nat.
Proof. unfold occurrences. simpl. destruct (str_eqb k x); reflexivity. Qed.

Lemma NoDup_occurrences l :
  NoDup l <-> forall k, (occurrences k l <= 1)%nat.
Proof.
  split.
  - induction 1 as [|x l Hx _ IH]; intros k; [unfold occurrences; simpl; lia|].
    rewrite occurrences_cons. destruct (str_eqb k x) eqn:E.
    + apply str_eqb_eq in E. subst. rewrite occurrences_absent by exact Hx. lia.
    + apply IH.
  - induction l as [|x l IH]; intros H; constructor.
    + intros Hin. apply occurrences_present in Hin.
      specialize (H x). rewrite occurrences_cons, str_eqb_refl in H. lia.
    + apply IH. intros k. specialize (H k). rewrite occurrences_cons in H. lia.
Qed.

Lemma keys_filter_NoDup {V} (P : str * V -> bool) (d : dict V) :
  NoDup (keys d) -> NoDup (keys (filter P d)).
Proof.
  unfold keys. induction d as [|[k v] d IH]; simpl; intros H; [constructor|].
  inversion H as [|? ? Hk Hd]; subst. destruct (P (k, v)); [|apply IH, Hd].
  simpl. constructor; [|apply IH, Hd].
  intros Hin. apply Hk. apply in_map_iff in Hin.
  destruct Hin as [[k' v'] [E Hin]]. simpl in E. subst k'.
  apply filter_In in Hin. destruct Hin as [Hin _].
  apply (in_map fst) in Hin. exact Hin.
Qed.

Lemma occurrences_map {A} (f : A -> str) k (l : list A) :
  occurrences k (map f l)
  = List.length (filter (fun x => str_eqb (f x) k) l).
Proof.
  unfold occurrences. induction l as [|x l IH]; simpl; [reflexivity|].
  replace (str_eqb k (f x)) with (str_eqb (f x) k).
  - destruct (str_eqb (f x) k); simpl; rewrite IH; reflexivity.
  - destruct (str_eqb (f x) k) eqn:E.
    + apply str_eqb_eq in E. rewrite E. symmetry. apply str_eqb_refl.
    + symmetry. apply str_eqb_neq. apply str_eqb_neq in E. congruence.
Qed.
End Repeats.

Section FirstSeen.
(** The keys of the dictionary after more elements: the keys it had, then the
    new ones in the order of their first occurrence. *)
Lemma filter_filter {A} (P Q : A -> bool) l :
  filter P (filter Q l) = filter (fun x => Q x && P x) l.
Proof.
  induction l as [|x l IH]; simpl; [reflexivity|].
  destruct (Q x); simpl; [destruct (P x)|]; rewrite IH; reflexivity.
Qed.

Lemma Counter_keys_fold l :
  forall d,
    keys (fold_left (fun d k => count_element k d) l d)
    = keys d
      ++ filter (fun k => negb (existsb (str_eqb k) (keys d))) (first_seen l).
Proof.
  induction l as [|k l IH]; intros d; simpl.
  - symmetry. apply app_nil_r.
  - rewrite IH. destruct (existsb (str_eqb k) (keys d)) eqn:E; simpl.
    + assert (In k (keys d)) as Hin.
      { apply existsb_exists in E. destruct E as [x [Hx Hk]].
        apply str_eqb_eq in Hk. subst. exact Hx. }
      rewrite count_element_keys_old by exact Hin. f_equal.
      rewrite filter_filter. apply filter_ext_in. intros y _.
      destruct (str_eqb k y) eqn:Ey; [|reflexivity].
      apply str_eqb_eq in Ey. subst y. rewrite E. reflexivity.
    + assert (~ In k (keys d)) as Hnew.
      { intros Hin. assert (existsb (str_eqb k) (keys d) = true) as H.
        { apply existsb_exists. exists k. split; [exact Hin|].
          apply str_eqb_refl. }
        congruence. }
      rewrite count_element_keys_new by exact Hnew.
      rewrite <- app_assoc. simpl. do 2 f_equal.
      rewrite filter_filter. apply filter_ext. intros y.
      rewrite existsb_app. simpl. rewrite orb_false_r, negb_orb.
      rewrite andb_comm. f_equal. f_equal.
      destruct (str_eqb k y) eqn:E1; destruct (str_eqb y k) eqn:E2;
        try reflexivity.
      * apply str_eqb_eq in E1. subst. rewrite str_eqb_refl in E2.
        discriminate.
      * apply str_eqb_eq in E2. subst. rewrite str_eqb_refl in E1.
        discriminate.
Qed.

Lemma Counter_keys l : keys (Counter l) = first_seen l.
Proof.
  unfold Counter. rewrite Counter_keys_fold. simpl.
  induction (first_seen l) as [|x r IH]; simpl; [reflexivity|].
  rewrite IH. reflexivity.
Qed.
End FirstSeen.

Section DetectorExtras.
Variable U : case_tables.

Lemma readable_maps qs readable :
  Forall2 (fun g r => snd r = snd g /\ first_match U qs (fst g) (fst r))
          (repeated U qs) readable ->
  map (fun r => normalize U (fst r)) readable = keys (repeated U qs) /\
  map snd readable = map snd (repeated U qs) /\
  List.length readable = List.length (repeated U qs).
Proof.
  unfold keys. induction 1 as [|g r gs rs [Hc Hf] _ [IH1 [IH2 IH3]]]; simpl.
  - repeat split.
  - destruct Hf as [earlier [later [_ [Hn _]]]].
    rewrite IH1, IH2, IH3, Hn, Hc. repeat split.
Qed.

Lemma repeated_keys_NoDup qs : NoDup (keys (repeated U qs)).
Proof. apply keys_filter_NoDup, counts_keys_NoDup. Qed.
End DetectorExtras.

(** X8: a repeated group holds at least two questions, so there are at most
    half as many repeated groups as questions, and the counts shown add up to
    no more than the number of questions. *)
Theorem repeated_groups_at_most_half (U : case_tables) (qs : list str) :
  (2 * List.length (repeated U qs) <= List.length qs)%nat /\
  (list_sum (map snd (repeated U qs)) <= List.length qs)%nat.
Proof.
  destruct (repeated_weight (counts U qs)) as [H1 H2].
  fold (repeated U qs) in H1, H2.
  assert (list_sum (map snd (counts U qs)) = List.length qs) as E.
  { unfold counts. rewrite Counter_sum. apply length_map. }
  lia.
Qed.

(** X9: no group is repeated exactly when the normalized forms of the
    questions are pairwise different; a run on such questions shows the line
    that says so and no line of a repeated question. *)
Theorem no_repeats_iff_distinct (U : case_tables) (qs : list str) :
  (repeated U qs = [] <-> NoDup (normalized U qs)) /\
  forall s,
    all_questions s = qs -> qs <> [] -> NoDup (normalized U qs) ->
    In no_repeats_line (snd (run (question_paper_analysis U s))) /\
    filter is_markdown (snd (run (question_paper_analysis U s))) = [].
Proof.
  assert (repeated U qs = [] <-> NoDup (normalized U qs)) as Hiff.
  { rewrite NoDup_occurrences. split.
    - intros E k.
      destruct (in_dec str_eq_dec k (normalized U qs)) as [Hin | Hout];
        [|rewrite occurrences_absent by exact Hout; lia].
      destruct (Nat.le_gt_cases (occurrences k (normalized U qs)) 1)
        as [H | H]; [exact H|].
      assert (In (k, occurrences k (normalized U qs)) (repeated U qs)) as Hr.
      { apply repeated_In. split; [|exact H]. apply counts_In. tauto. }
      rewrite E in Hr. destruct Hr.
    - intros H. destruct (repeated U qs) as [|[k c] r] eqn:E; [reflexivity|].
      assert (In (k, c) (repeated U qs)) as Hin by (rewrite E; left; reflexivity).
      apply repeated_In in Hin. destruct Hin as [Hin Hc].
      apply counts_In in Hin. destruct Hin as [_ ->].
      specialize (H k). lia. }
  split; [exact Hiff|]. intros s <- Hne Hnd.
  destruct (repeated_readable_spec U (all_questions s)) as [readable [Hr Hall]].
  apply Hiff in Hnd. rewrite Hnd in Hall. inversion Hall; subst.
  destruct (question_paper_analysis_events U s [] Hne Hr) as [rest [E Hrest]].
  rewrite E. split.
  - apply in_or_app. left. unfold analysis_trace, repeats_block.
    apply in_or_app. right. left. reflexivity.
  - rewrite filter_app, analysis_trace_lines. simpl. apply filter_none.
    eapply Forall_impl; [|exact Hrest]. cbv beta. tauto.
Qed.

Lemma no_repeats_iff_distinct_witness :
  In no_repeats_line
     (snd (run (question_paper_analysis latin_greek distinct_papers))) /\
  filter is_markdown
         (snd (run (question_paper_analysis latin_greek distinct_papers))) = [].
Proof.
  apply (proj2 (no_repeats_iff_distinct
                  latin_greek (all_questions distinct_papers))).
  - reflexivity.
  - vm_compute. discriminate.
  - apply (proj1 (no_repeats_iff_distinct
                    latin_greek (all_questions distinct_papers))).
    vm_compute. reflexivity.
Defined.

(** X10: the mapping loop gives one original per repeated group, with the
    count of the group, and the originals of different groups are different
    questions. *)
Theorem representatives_distinct (U : case_tables) (qs : list str) :
  exists readable,
    repeated_readable U qs = Returned readable /\
    List.length readable = List.length (repeated U qs) /\
    map snd readable = map snd (repeated U qs) /\
    map (fun r => normalize U (fst r)) readable = keys (repeated U qs) /\
    NoDup (map fst readable).
Proof.
  destruct (repeated_readable_spec U qs) as [readable [Hr Hall]].
  destruct (readable_maps U qs readable Hall) as [Hk [Hc Hl]].
  exists readable. repeat split; try assumption.
  apply (NoDup_map_inv (normalize U)). rewrite map_map, Hk.
  apply repeated_keys_NoDup.
Qed.

(** X11: the groups are held in the order in which their normalized forms
    first appear among the questions, and groups shown with the same count
    keep that order. *)
Theorem groups_in_order_of_first_appearance (U : case_tables) (qs : list str) :
  keys (counts U qs) = first_seen (normalized U qs) /\
  exists readable,
    repeated_readable U qs = Returned readable /\
    map (fun r => normalize U (fst r)) readable
    = filter (fun k => (1 <? occurrences k (normalized U qs))%nat)
             (first_seen (normalized U qs)) /\
    forall n,
      filter (fun g => (snd g =? n)%nat) (sorted_reverse snd readable)
      = filter (fun g => (snd g =? n)%nat) readable.
Proof.
  assert (keys (counts U qs) = first_seen (normalized U qs)) as Hkeys
      by apply Counter_keys.
  split; [exact Hkeys|].
  destruct (repeated_readable_spec U qs) as [readable [Hr Hall]].
  destruct (readable_maps U qs readable Hall) as [Hk _].
  exists readable. split; [exact Hr|]. split.
  - rewrite Hk, <- Hkeys. unfold repeated, keys.
    assert (forall d : dict nat,
               (forall k c, In (k, c) d -> c = occurrences k (normalized U qs)) ->
               map fst (filter (fun qc => (1 <? snd qc)%nat) d)
               = filter (fun k => (1 <? occurrences k (normalized U qs))%nat)
                        (map fst d)) as H.
    { induction d as [|[k c] d IH]; intros Hd; [reflexivity|].
      cbn [filter map fst snd]. rewrite <- (Hd k c (or_introl eq_refl)).
      assert (forall k' c', In (k', c') d ->
                            c' = occurrences k' (normalized U qs)) as Hd'
          by (intros k' c' H'; apply Hd; right; exact H').
      destruct (1 <? c)%nat; cbn [map fst]; rewrite (IH Hd'); reflexivity. }
    apply H. intros k c Hin. apply counts_In in Hin. tauto.
  - intros n. apply (sorted_reverse_stable snd).
Qed.

(** X12: the number shown beside a question is the number of questions of
    the input whose normalization is that of the question shown, and it is at
    least 2. *)
Theorem shown_count_counts_matching_questions (U : case_tables)
        (qs : list str) :
  exists readable,
    repeated_readable U qs = Returned readable /\
    Forall
      (fun g =>
         snd g
         = List.length
             (filter (fun q => str_eqb (normalize U q) (normalize U (fst g)))
                     qs) /\
         (2 <= snd g)%nat)
      (sorted_reverse snd readable).
Proof.
  destruct (repeated_readable_spec U qs) as [readable [Hr Hall]].
  exists readable. split; [exact Hr|]. apply Forall_forall.
  intros [orig c] Hin.
  apply (Permutation_in _ (sorted_reverse_perm snd readable)) in Hin.
  destruct (readable_In U qs readable orig c Hall Hin)
    as [k [Hk [earlier [later [_ [Hn _]]]]]].
  apply repeated_In in Hk. destruct Hk as [Hk Hc].
  apply counts_In in Hk. destruct Hk as [_ Hocc]. simpl.
  rewrite Hn. split; [|lia]. rewrite Hocc. apply occurrences_map.
Qed.

Lemma occurrences_perm k l l' :
  Permutation l l' -> occurrences k l = occurrences k l'.
Proof.
  intros H. unfold occurrences. apply Permutation_length.
  induction H as [|x l l' _ IH|x y l|l l' l'' _ IH1 _ IH2]; simpl.
  - constructor.
  - destruct (str_eqb k x); [constructor|]; exact IH.
  - destruct (str_eqb k x); destruct (str_eqb k y);
      try reflexivity. apply perm_swap.
  - etransitivity; eassumption.
Qed.

Lemma NoDup_keys_entries {V} (d : dict V) : NoDup (keys d) -> NoDup d.
Proof. apply NoDup_map_inv. Qed.

(** X13: the groups and their counts do not depend on the order of the
    questions: the same questions in another order give the same entries of
    the counter and the same repeated groups, up to their order. *)
Theorem counts_do_not_depend_on_order (U : case_tables) (qs qs' : list str) :
  Permutation qs qs' ->
  Permutation (counts U qs) (counts U qs') /\
  Permutation (repeated U qs) (repeated U qs').
Proof.
  intros H.
  assert (Permutation (normalized U qs) (normalized U qs')) as Hn
      by (apply Permutation_map, H).
  assert (forall k c, In (k, c) (counts U qs) <-> In (k, c) (counts U qs'))
    as Hin.
  { intros k c. rewrite !counts_In.
    rewrite (occurrences_perm k _ _ Hn). split; intros [Hk Hc]; split;
      try exact Hc.
    - apply (Permutation_in _ Hn Hk).
    - apply (Permutation_in _ (Permutation_sym Hn) Hk). }
  split.
  - apply NoDup_Permutation.
    + apply NoDup_keys_entries, counts_keys_NoDup.
    + apply NoDup_keys_entries, counts_keys_NoDup.
    + intros [k c]. apply Hin.
  - apply NoDup_Permutation.
    + apply NoDup_keys_entries, repeated_keys_NoDup.
    + apply NoDup_keys_entries, repeated_keys_NoDup.
    + intros [k c]. rewrite !repeated_In, Hin. reflexivity.
Qed.

Lemma counts_do_not_depend_on_order_witness :
  Permutation (repeated latin_greek [osi_padded; logos_lower; osi_shouting])
              (repeated latin_greek [osi_shouting; osi_padded; logos_lower]).
Proof.
  apply (counts_do_not_depend_on_order
           latin_greek [osi_padded; logos_lower; osi_shouting]
           [osi_shouting; osi_padded; logos_lower]).
  apply Permutation_sym.
  apply (Permutation_cons_append [osi_padded; logos_lower] osi_shouting).
Defined.

(** ** Properties of a run of the script *)

Section Run.
Variable U : case_tables.
Variable s : session.

Lemma syllabus_analysis_sends : sends s (syllabus_analysis s) (syllabus_request s).
Proof.
  intros t. unfold syllabus_analysis, syllabus_request.
  destruct (syllabus_file s) as [file|].
  - destruct (analyze_syllabus_clicked s).
    + cbv [bind emit ret lift call_llm].
      destruct (completion s (syllabus_prompt (extract_text_from_pdf file))).
      * eexists. rewrite <- !app_assoc. split; [reflexivity|]. split; reflexivity.
      * eexists. rewrite <- !app_assoc. split; [reflexivity|]. split; reflexivity.
    + cbv [bind emit ret]. eexists. rewrite <- !app_assoc.
      split; [reflexivity|]. split; reflexivity.
  - exists []. rewrite app_nil_r. repeat split.
Qed.

Lemma question_paper_analysis_sends :
  sends s (question_paper_analysis U s)
        (match all_questions s with
         | _ :: _ => Some (pattern_prompt (all_questions s))
         | [] => None
         end).
Proof.
  intros t. destruct (all_questions s) as [|q qs] eqn:E.
  - rewrite question_paper_analysis_none by exact E.
    eexists. split; [reflexivity|]. split; reflexivity.
  - assert (all_questions s <> []) as Hne by congruence.
    destruct (repeated_readable_spec U (all_questions s)) as [readable [Hr _]].
    rewrite (question_paper_analysis_found U s t readable Hne Hr).
    rewrite <- E.
    destruct (completion s (pattern_prompt (all_questions s))).
    + eexists. split; [reflexivity|]. split; [|reflexivity].
      rewrite filter_app, analysis_trace_request. reflexivity.
    + eexists. split; [reflexivity|]. split; [|reflexivity].
      apply analysis_trace_request.
Qed.

Lemma question_papers_section_sends :
  sends s (question_papers_section U s) (pattern_request s).
Proof.
  intros t. unfold question_papers_section, pattern_request.
  destruct (question_papers s) as [|qp qps] eqn:Eq.
  - exists []. rewrite app_nil_r. repeat split.
  - destruct (analyze_question_papers_clicked s).
    + cbv [bind emit].
      destruct (question_paper_analysis_sends
                  ((t ++ [st_success
                            (str_of_nat (List.length (qp :: qps))
                             ++ utf8 " question paper(s) uploaded.")])
                     ++ [st_button (utf8 "📊 Analyze Question Papers")]))
        as [added [Ht [Hreq Hout]]].
      rewrite Ht, Hout. eexists. rewrite <- !app_assoc.
      split; [reflexivity|]. split; [|reflexivity].
      simpl. exact Hreq.
    + cbv [bind emit ret]. eexists. rewrite <- !app_assoc.
      split; [reflexivity|]. split; reflexivity.
Qed.

Lemma both_uploaded_tip_sends : sends s (both_uploaded_tip s) None.
Proof.
  intros t. unfold both_uploaded_tip.
  destruct (syllabus_file s); [destruct (question_papers s)|];
    try solve [exists []; rewrite app_nil_r; repeat split].
  cbv [bind emit]. eexists. rewrite <- !app_assoc.
  split; [reflexivity|]. split; reflexivity.
Qed.

Lemma app_py_without_key :
  truthy (OPENAI_API_KEY s) = false ->
  run (app_py U s) = (Raised StopException, [missing_key_line]).
Proof. intros H. unfold run, app_py. rewrite H. reflexivity. Qed.

Lemma app_py_with_key :
  truthy (OPENAI_API_KEY s) = true ->
  run (app_py U s)
  = (syllabus_analysis s ;; question_papers_section U s ;; both_uploaded_tip s)
      fixed_widgets.
Proof. intros H. unfold run, app_py. rewrite H. reflexivity. Qed.

(** A run with a credential: the fixed widgets, then what the two sections
    add; the requests are those of the sections, the second only if the first
    section returned. *)
Lemma app_py_summary :
  truthy (OPENAI_API_KEY s) = true ->
  exists added,
    snd (run (app_py U s)) = fixed_widgets ++ added /\
    (filter is_chat_completion added
     = request_events (syllabus_request s)
       ++ match syllabus_request s with
          | Some p =>
            match completion s p with
            | Returned _ => request_events (pattern_request s)
            | Raised _ => []
            end
          | None => request_events (pattern_request s)
          end) /\
    (forall e,
        fst (run (app_py U s)) = Raised e ->
        exists p, In (chat_completion p) added /\ completion s p = Raised e) /\
    ((forall p, exists c, completion s p = Returned c) ->
     fst (run (app_py U s)) = Returned tt).
Proof.
  intros Hkey. rewrite (app_py_with_key Hkey). unfold bind.
  destruct (syllabus_analysis_sends fixed_widgets) as [a1 [Ht1 [Hr1 Ho1]]].
  destruct (syllabus_analysis s fixed_widgets) as [o1 t1]. cbn [fst snd] in Ht1, Ho1.
  subst t1.
  assert (forall p, request_events (Some p) = filter is_chat_completion a1 ->
                    In (chat_completion p) a1) as Hin1.
  { intros p E. assert (In (chat_completion p) (filter is_chat_completion a1)) as H
        by (rewrite <- E; left; reflexivity).
    apply filter_In in H. tauto. }
  destruct o1 as [[]|e1].
  - destruct (question_papers_section_sends (fixed_widgets ++ a1))
      as [a2 [Ht2 [Hr2 Ho2]]].
    destruct (question_papers_section U s (fixed_widgets ++ a1)) as [o2 t2].
    cbn [fst snd] in Ht2, Ho2. subst t2.
    assert (forall p, request_events (Some p) = filter is_chat_completion a2 ->
                      In (chat_completion p) a2) as Hin2.
    { intros p E. assert (In (chat_completion p) (filter is_chat_completion a2)) as H
          by (rewrite <- E; left; reflexivity).
      apply filter_In in H. tauto. }
    assert (match syllabus_request s with
            | Some p =>
              match completion s p with
              | Returned _ => request_events (pattern_request s)
              | Raised _ => []
              end
            | None => request_events (pattern_request s)
            end = request_events (pattern_request s)) as Hsecond.
    { destruct (syllabus_request s) as [p|]; [|reflexivity].
      destruct (completion s p); [reflexivity | discriminate Ho1]. }
    destruct o2 as [[]|e2].
    + destruct (both_uploaded_tip_sends ((fixed_widgets ++ a1) ++ a2))
        as [a3 [Ht3 [Hr3 Ho3]]].
      destruct (both_uploaded_tip s ((fixed_widgets ++ a1) ++ a2)) as [o3 t3].
      cbn [fst snd] in Ht3, Ho3. subst t3 o3.
      exists (a1 ++ a2 ++ a3). cbn [fst snd]. rewrite <- ?app_assoc.
      split; [reflexivity|]. split; [|split].
      * rewrite !filter_app, Hr1, Hr2, Hr3, Hsecond. simpl.
        rewrite app_nil_r. reflexivity.
      * intros e He. discriminate He.
      * reflexivity.
    + exists (a1 ++ a2). cbn [fst snd]. rewrite <- ?app_assoc.
      split; [reflexivity|]. split; [|split].
      * rewrite !filter_app, Hr1, Hr2, Hsecond. reflexivity.
      * intros e [= <-]. destruct (pattern_request s) as [p|] eqn:Ep;
          [|discriminate Ho2].
        exists p. split; [apply in_or_app; right; apply Hin2; symmetry; exact Hr2|].
        destruct (completion s p); [discriminate Ho2 | congruence].
      * intros Hok. destruct (pattern_request s) as [p|]; [|discriminate Ho2].
        destruct (Hok p) as [c Hc]. rewrite Hc in Ho2. discriminate Ho2.
  - exists a1. cbn [fst snd]. split; [reflexivity|].
    destruct (syllabus_request s) as [p|] eqn:Ep; [|discriminate Ho1].
    split; [|split].
    + rewrite Hr1. destruct (completion s p); [discriminate Ho1|].
      simpl. reflexivity.
    + intros e [= <-]. exists p. split; [apply Hin1; symmetry; exact Hr1|].
      destruct (completion s p); [discriminate Ho1 | congruence].
    + intros Hok. destruct (Hok p) as [c Hc]. rewrite Hc in Ho1.
      discriminate Ho1.
Qed.
End Run.

(** X14: a run sends at most two requests to the completion service; it sends
    none without a credential and none when no button was pressed; and every
    request it sends is the syllabus prompt of an uploaded syllabus whose
    button was pressed, or the pattern prompt of uploaded papers whose button
    was pressed and in which questions were found. *)
Theorem requests_of_a_run (U : case_tables) (s : session) :
  let requests := filter is_chat_completion (snd (run (app_py U s))) in
  (List.length requests <= 2)%nat /\
  (truthy (OPENAI_API_KEY s) = false -> requests = []) /\
  (analyze_syllabus_clicked s = false ->
   analyze_question_papers_clicked s = false -> requests = []) /\
  (forall p, In (chat_completion p) requests ->
             syllabus_request s = Some p \/ pattern_request s = Some p) /\
  (truthy (OPENAI_API_KEY s) = true ->
   requests
   = request_events (syllabus_request s)
     ++ match syllabus_request s with
        | Some p =>
          match completion s p with
          | Returned _ => request_events (pattern_request s)
          | Raised _ => []
          end
        | None => request_events (pattern_request s)
        end).
Proof.
  cbv zeta. destruct (truthy (OPENAI_API_KEY s)) eqn:Hkey.
  - destruct (app_py_summary U s Hkey) as [added [-> [Hreq _]]].
    rewrite filter_app. change (filter is_chat_completion fixed_widgets) with (@nil event).
    cbn [List.app]. rewrite Hreq.
    assert (analyze_syllabus_clicked s = false -> syllabus_request s = None) as H1.
    { intros H. unfold syllabus_request. rewrite H.
      destruct (syllabus_file s); reflexivity. }
    assert (analyze_question_papers_clicked s = false ->
            pattern_request s = None) as H2.
    { intros H. unfold pattern_request. rewrite H.
      destruct (question_papers s); reflexivity. }
    split; [|split; [|split; [|split]]].
    + destruct (syllabus_request s) as [p|];
        [destruct (completion s p)|]; destruct (pattern_request s);
        simpl; lia.
    + discriminate.
    + intros Hs Hq. rewrite (H1 Hs), (H2 Hq). reflexivity.
    + intros p Hp. destruct (syllabus_request s) as [p1|];
        [destruct (completion s p1)|];
        destruct (pattern_request s) as [p2|]; simpl in Hp;
        repeat (destruct Hp as [[= ->] | Hp]; [tauto|]); destruct Hp.
    + reflexivity.
  - rewrite (app_py_without_key U s Hkey).
    split; [simpl; lia|]. split; [reflexivity|]. split; [reflexivity|].
    split; [intros p []|discriminate].
Qed.

Lemma requests_of_a_run_witness :
  filter is_chat_completion (snd (run (app_py latin_greek no_key))) = [].
Proof.
  apply (proj1 (proj2 (requests_of_a_run latin_greek no_key))).
  reflexivity.
Defined.

(** X15: the code of the script raises nothing of its own but the stop of a
    run without a credential: when a run ends by an exception, either the
    credential is missing and the exception is that stop, or the exception is
    the one the completion service raised on a request the run sent.  With a
    credential and a service that answers, every run returns. *)
Theorem run_raises_only_what_the_service_raises (U : case_tables)
        (s : session) :
  (forall e,
      fst (run (app_py U s)) = Raised e ->
      (truthy (OPENAI_API_KEY s) = false /\ e = StopException) \/
      exists p,
        In (chat_completion p) (snd (run (app_py U s))) /\
        completion s p = Raised e) /\
  (truthy (OPENAI_API_KEY s) = true ->
   (forall p, exists c, completion s p = Returned c) ->
   fst (run (app_py U s)) = Returned tt).
Proof.
  destruct (truthy (OPENAI_API_KEY s)) eqn:Hkey.
  - destruct (app_py_summary U s Hkey) as [added [Ht [_ [Hraise Hok]]]].
    split.
    + intros e He. right. destruct (Hraise e He) as [p [Hin Hp]].
      exists p. split; [|exact Hp]. rewrite Ht. apply in_or_app. right.
      exact Hin.
    + intros _. exact Hok.
  - rewrite (app_py_without_key U s Hkey). split; [|discriminate].
    intros e [= <-]. left. split; reflexivity.
Qed.

Lemma run_raises_only_what_the_service_raises_witness :
  fst (run (app_py latin_greek two_papers)) = Returned tt.
Proof.
  apply (proj2 (run_raises_only_what_the_service_raises latin_greek two_papers)).
  - reflexivity.
  - intros p. eexists. reflexivity.
Defined.

(** X16: a failure of the completion service is not handled: when the request
    for the syllabus fails, the run ends there with the exception of the
    service, and nothing about the question papers is shown, uploaded or
    not. *)
Theorem failed_syllabus_request_ends_run (U : case_tables) (s : session)
        (p : str) (e : exn) :
  truthy (OPENAI_API_KEY s) = true ->
  syllabus_request s = Some p ->
  completion s p = Raised e ->
  run (app_py U s)
  = (Raised e,
     fixed_widgets ++ syllabus_header s
       ++ [st_spinner (utf8 "Analyzing syllabus and generating questions...");
           chat_completion p]).
Proof.
  intros Hkey Hreq He. rewrite (app_py_with_key U s Hkey).
  unfold syllabus_request in Hreq. unfold syllabus_header, syllabus_analysis.
  destruct (syllabus_file s) as [file|]; [|discriminate Hreq].
  destruct (analyze_syllabus_clicked s); [|discriminate Hreq].
  injection Hreq as Hp. cbv [bind emit ret lift call_llm].
  rewrite Hp, He. rewrite <- ?app_assoc. reflexivity.
Qed.

Lemma failed_syllabus_request_ends_run_witness :
  fst (run (app_py latin_greek failing_syllabus)) = Raised ServiceError.
Proof.
  rewrite (failed_syllabus_request_ends_run
             latin_greek failing_syllabus
             (syllabus_prompt (utf8 ("Unit 1: networks" ++ nl)))
             ServiceError); reflexivity.
Defined.

(** X17: the credential check takes the empty string for a missing
    credential: a run shows the error line and nothing else exactly when the
    credential is absent or empty; with any other credential the run starts
    with the page set-up and the two file uploaders. *)
Theorem credential_check (U : case_tables) (s : session) :
  (snd (run (app_py U s)) = [missing_key_line] <->
   OPENAI_API_KEY s = None \/ OPENAI_API_KEY s = Some []) /\
  (OPENAI_API_KEY s = Some [] ->
   run (app_py U s) = (Raised StopException, [missing_key_line])) /\
  (forall c key, OPENAI_API_KEY s = Some (c :: key) ->
                 exists added, snd (run (app_py U s)) = fixed_widgets ++ added).
Proof.
  assert (truthy (OPENAI_API_KEY s) = false <->
          OPENAI_API_KEY s = None \/ OPENAI_API_KEY s = Some []) as Htr.
  { destruct (OPENAI_API_KEY s) as [[|c key]|]; simpl; split; intros H;
      try tauto; try discriminate.
    destruct H as [H | H]; discriminate H. }
  split; [|split].
  - rewrite <- Htr. destruct (truthy (OPENAI_API_KEY s)) eqn:Hkey.
    + destruct (app_py_summary U s Hkey) as [added [-> _]].
      split; discriminate.
    + rewrite (app_py_without_key U s Hkey). tauto.
  - intros H. apply app_py_without_key. apply Htr. right. exact H.
  - intros c key H. assert (truthy (OPENAI_API_KEY s) = true) as Hkey
        by (rewrite H; reflexivity).
    destruct (app_py_summary U s Hkey) as [added [Ht _]].
    exists added. exact Ht.
Qed.

Lemma credential_check_witness :
  run (app_py latin_greek empty_key) = (Raised StopException, [missing_key_line]).
Proof.
  apply (proj1 (proj2 (credential_check latin_greek empty_key))).
  reflexivity.
Defined.

Lemma no_text_no_characters qp :
  Forall no_text qp -> extract_text_from_pdf qp = [].
Proof.
  intros H. rewrite extract_text_from_pdf_eq.
  induction H as [|p ps Hp _ IH]; [reflexivity|]. simpl. rewrite IH.
  destruct p as [[|c t]|]; try reflexivity. discriminate Hp.
Qed.

(** X18: papers whose pages have no text (scanned images) give no question:
    the analysis shows the error line about scanned files and ends; it shows
    no count and sends no request. *)
Theorem scanned_papers_give_no_questions (U : case_tables) (s : session) :
  Forall (Forall no_text) (question_papers s) ->
  all_questions s = [] /\
  run (question_paper_analysis U s)
  = (Returned tt,
     [st_spinner (utf8 "Reading question papers and finding patterns...");
      st_error
        (utf8 ("Could not find questions. "
               ++ "Check if the PDFs are scanned images instead of text."))]) /\
  pattern_request s = None.
Proof.
  intros H.
  assert (all_questions s = []) as E.
  { rewrite all_questions_eq.
    induction H as [|qp qps Hqp _ IH]; [reflexivity|]. simpl. rewrite IH.
    rewrite (no_text_no_characters qp Hqp). reflexivity. }
  split; [exact E|]. split.
  - unfold run. rewrite (question_paper_analysis_none U s [] E). reflexivity.
  - unfold pattern_request. rewrite E.
    destruct (question_papers s); [|destruct (analyze_question_papers_clicked s)];
      reflexivity.
Qed.

Lemma scanned_papers_give_no_questions_witness :
  all_questions scanned_papers = [].
Proof.
  apply (scanned_papers_give_no_questions latin_greek scanned_papers).
  repeat constructor.
Defined.

Lemma firstn_50_app {A} (l more : list A) :
  (50 <= List.length l)%nat ->
  firstn (Nat.min 50 (List.length (l ++ more))) (l ++ more)
  = firstn (Nat.min 50 (List.length l)) l.
Proof.
  intros H. rewrite length_app.
  rewrite !Nat.min_l by lia. rewrite firstn_app.
  replace (50 - List.length l)%nat with 0%nat by lia.
  simpl. apply app_nil_r.
Qed.

(** X19: once there are 50 questions, the questions that follow have no
    influence on the prompt. *)
Theorem prompt_ignores_later_questions (qs more : list str) :
  (50 <= List.length qs)%nat ->
  pattern_prompt (qs ++ more) = pattern_prompt qs.
Proof.
  intros H. unfold pattern_prompt, joined_questions.
  rewrite !py_slice_50, firstn_50_app by exact H. reflexivity.
Qed.

Lemma prompt_ignores_later_questions_witness :
  pattern_prompt (sixty_questions ++ [osi_padded])
  = pattern_prompt sixty_questions.
Proof.
  apply (prompt_ignores_later_questions sixty_questions [osi_padded]).
  vm_compute. lia.
Defined.

(** X20: the count and the repeated questions are shown before the completion
    service is asked: when questions were found, the trace of the analysis
    begins with the count and the repeated groups and then the request, and
    when the service fails the run ends with its exception and exactly that
    much shown. *)
Theorem results_shown_before_request (U : case_tables) (s : session) :
  all_questions s <> [] ->
  exists readable,
    repeated_readable U (all_questions s) = Returned readable /\
    (exists rest,
        snd (run (question_paper_analysis U s))
        = analysis_trace (all_questions s) readable ++ rest) /\
    forall e,
      completion s (pattern_prompt (all_questions s)) = Raised e ->
      run (question_paper_analysis U s)
      = (Raised e, analysis_trace (all_questions s) readable).
Proof.
  intros Hne.
  destruct (repeated_readable_spec U (all_questions s)) as [readable [Hr _]].
  exists readable. split; [exact Hr|]. split.
  - destruct (question_paper_analysis_events U s readable Hne Hr)
      as [rest [E _]].
    exists rest. exact E.
  - intros e He. unfold run.
    rewrite (question_paper_analysis_found U s [] readable Hne Hr), He.
    reflexivity.
Qed.

Lemma results_shown_before_request_witness :
  fst (run (question_paper_analysis latin_greek distinct_papers))
  = Raised ServiceError.
Proof.
  destruct (results_shown_before_request latin_greek distinct_papers)
    as [readable [_ [_ H]]].
  - vm_compute. discriminate.
  - rewrite (H ServiceError eq_refl). reflexivity.
Defined.
